(** * NodeCache: a hierarchical in-memory cache with TTL expiry

    A shallow embedding of [src/index.ts] (class [NodeCache]) and the
    properties its specification states about it.

    Scope of the embedding.

    - JavaScript values are modelled as trees: the primitives, and plain
      objects given by their own properties (a finite map from property
      name to value).  Arrays, functions, accessors, frozen objects and
      sharing between objects are not modelled.
    - The walks test and read own properties.  They are the walks of the
      code for segments that name no member of [Object.prototype], in a
      run that never passed such a segment to [set] or [delete], so that
      [Object.prototype] is the standard one: [plain_key] and [plain_op]
      state this domain.  A segment such as [constructor] or [__proto__]
      makes the code leave the value tree; what it does there is not
      modelled.
    - The class body is strict-mode code, so writing a property of a
      primitive raises [TypeError]; the [in] operator raises [TypeError]
      on every non-object in either mode.
    - Numbers are integer-valued doubles, held in [Z]; a product is
      rounded as the double product is.  NaN, fractions and a product
      that overflows to [Infinity] are not modelled.
    - Strings are sequences of one-byte characters.
    - [console.debug] tracing is not modelled.
    - Time is not modelled: a pending timeout keeps the key and the delay
      it was armed with, and may fire at any later point. *)

From stdpp Require Import gmap strings list fin_maps.
From Stdlib Require Import ZArith Ascii String DecimalString.

#[local] Set Warnings "-register-all,-clear-no-such-hyp".
#[local] Open Scope string_scope.

(** ** String operations used on keys *)

Module Str.

(** [s.split(':')]: never empty, one segment more than there are colons. *)
Fixpoint split (s : string) : list string :=
  match s with
  | EmptyString => [EmptyString]
  | String c r =>
      if Ascii.eqb c ":"%char then EmptyString :: split r
      else match split r with
           | seg :: segs => String c seg :: segs
           | [] => [String c EmptyString]
           end
  end.

(** [parts.join(':')]. *)
Fixpoint join (parts : list string) : string :=
  match parts with
  | [] => EmptyString
  | [seg] => seg
  | seg :: rest => seg ++ ":" ++ join rest
  end.

(** [parts.slice(0, n)]. *)
Definition slice0 (n : nat) (parts : list string) : list string := take n parts.

(** [s.startsWith(p)]. *)
Fixpoint startsWith (s p : string) {struct p} : bool :=
  match p with
  | EmptyString => true
  | String b p' =>
      match s with
      | EmptyString => false
      | String a s' => Ascii.eqb a b && startsWith s' p'
      end
  end.

(** A segment is a string without the separator. *)
Fixpoint colon_free (s : string) : bool :=
  match s with
  | EmptyString => true
  | String c r => negb (Ascii.eqb c ":"%char) && colon_free r
  end.

End Str.

(** ** Values and completions *)

Inductive value : Type :=
  | VUndefined
  | VNull
  | VBoolean (b : bool)
  | VNumber (n : Z)
  | VString (s : string)
  | VObject (props : gmap string value).

(** A leaf is anything that is not an object. *)
Definition leaf (v : value) : bool :=
  match v with VObject _ => false | _ => true end.

Inductive error : Type := TypeError.

Inductive completion (A : Type) : Type :=
  | Normal (a : A)
  | Throw (e : error).
Arguments Normal {A} a.
Arguments Throw {A} e.

(** *** Property access on a value

    Each operation returns its completion and the receiver after the
    operation (objects are updated in place). *)

(** Own property names of a string primitive: ["length"] and the indices
    below its length.  They are not configurable. *)
Definition string_own_property (s part : string) : bool :=
  String.eqb part "length"
  || existsb (λ i, String.eqb part (NilZero.string_of_uint (Nat.to_uint i)))
       (seq 0 (String.length s)).

(** [current[part] = v], for a part that names no accessor and no
    read-only member *)
Definition put_property (current : value) (part : string) (v : value)
  : completion unit * value :=
  match current with
  | VObject m => (Normal tt, VObject (<[part := v]> m))
  | _ => (Throw TypeError, current)
  end.

(** [delete current[part]] *)
Definition delete_property (current : value) (part : string)
  : completion unit * value :=
  match current with
  | VObject m => (Normal tt, VObject (delete part m))
  | VUndefined | VNull => (Throw TypeError, current)
  | VString s =>
      if string_own_property s part then (Throw TypeError, current)
      else (Normal tt, current)
  | VBoolean _ | VNumber _ => (Normal tt, current)
  end.

(** *** The three walks over the value tree

    On an object, [part in current] and [current[part]] are taken on the
    own properties: what the code does for a segment that names no member
    of [Object.prototype]. *)

(** The loop of [get]:
    [for (const part of parts) { if (!(part in current)) return undefined;
    current = current[part]; } return current;] *)
Fixpoint get_walk (current : value) (parts : list string) : completion value :=
  match parts with
  | [] => Normal current
  | part :: rest =>
      match current with
      | VObject m =>
          match m !! part with
          | None => Normal VUndefined
          | Some child => get_walk child rest
          end
      | _ => Throw TypeError
      end
  end.

(** The [forEach] of [set]: the last segment is assigned, every other
    segment is created as [{}] when it is not [in] the current object and
    then entered. *)
Fixpoint set_walk (current : value) (parts : list string) (v : value)
  : completion unit * value :=
  match parts with
  | [] => (Normal tt, current)
  | part :: rest =>
      match rest with
      | [] => put_property current part v
      | _ :: _ =>
          match current with
          | VObject m =>
              let child := default (VObject ∅) (m !! part) in
              let '(r, child') := set_walk child rest v in
              (r, VObject (<[part := child']> m))
          | _ => (Throw TypeError, current)
          end
      end
  end.

(** The loop of [delete] over all segments but the last, followed by
    [delete current[parts[parts.length - 1]]].  For an empty [parts]
    (which [split] never returns) the index is [undefined], and the
    property name is its string conversion. *)
Fixpoint delete_walk (current : value) (parts : list string)
  : completion unit * value :=
  match parts with
  | [] => delete_property current "undefined"
  | part :: rest =>
      match rest with
      | [] => delete_property current part
      | _ :: _ =>
          match current with
          | VObject m =>
              match m !! part with
              | None => (Normal tt, current)
              | Some child =>
                  let '(r, child') := delete_walk child rest in
                  (r, VObject (<[part := child']> m))
              end
          | _ => (Throw TypeError, current)
          end
      end
  end.

(** The node a path denotes in a value tree, if any. *)
Fixpoint resolve (current : value) (parts : list string) : option value :=
  match parts with
  | [] => Some current
  | part :: rest =>
      match current with
      | VObject m => m !! part ≫= λ child, resolve child rest
      | _ => None
      end
  end.

(** ** The class *)

Module NodeCache.

Record CacheOptions : Type := {
  ttl : option Z;      (* seconds; absent: entries do not expire *)
  debug : bool
}.

(** An instance, together with the timeouts it has armed and that have
    not fired yet: the key each callback will delete, and the delay in
    milliseconds given to [setTimeout]. *)
Record t : Type := {
  options : CacheOptions;
  store : value;
  keys : gset string;
  timeouts : list (string * Z)
}.

Definition with_store (c : t) (s : value) : t :=
  {| options := options c; store := s; keys := keys c; timeouts := timeouts c |}.
Definition with_keys (c : t) (ks : gset string) : t :=
  {| options := options c; store := store c; keys := ks; timeouts := timeouts c |}.
Definition with_timeouts (c : t) (ts : list (string * Z)) : t :=
  {| options := options c; store := store c; keys := keys c; timeouts := ts |}.

(** [new NodeCache(options)] *)
Definition construct (o : CacheOptions) : t :=
  {| options := o; store := VObject ∅; keys := ∅; timeouts := [] |}.

(** *** Methods as state transformers that may throw *)

Definition method (A : Type) : Type := t → completion A * t.

Definition ret {A} (a : A) : method A := λ c, (Normal a, c).

Definition bind {A B} (m : method A) (f : A → method B) : method B :=
  λ c, match m c with
       | (Normal a, c') => f a c'
       | (Throw e, c') => (Throw e, c')
       end.

(** Statement sequencing: [k] runs unless [m] throws. *)
Notation "m >> k" := (bind m (λ _, k))
  (at level 65, right associativity).

(** Run a walk on [this.store]; the tree keeps what the walk did to it
    also when the walk throws. *)
Definition on_store (walk : value → completion unit * value) : method unit :=
  λ c, let '(r, s) := walk (store c) in (r, with_store c s).

(** [setTimeout(() => this.delete(key), delay)] *)
Definition setTimeout (key : string) (delay : Z) : method unit :=
  λ c, (Normal tt, with_timeouts c (timeouts c ++ [(key, delay)])).

(** Truthiness of an optional number: [undefined] and [0] are falsy. *)
Definition truthy (n : option Z) : bool :=
  match n with
  | Some z => negb (z =? 0)%Z
  | None => false
  end.

(** [a ?? b] *)
Definition nullish (a b : option Z) : option Z :=
  match a with
  | Some _ => a
  | None => b
  end.

(** The double nearest to an integer, ties to even: integers below
    [2 ^ 53] in magnitude are doubles; above, a double is a 53-bit
    integer times a power of two. *)
Definition to_double (z : Z) : Z :=
  let a := Z.abs z in
  if (a <? 2 ^ 53)%Z then z
  else
    let e := (Z.log2 a - 52)%Z in
    let q := Z.shiftr a e in
    let r := (a - Z.shiftl q e)%Z in
    let half := Z.shiftl 1 (e - 1) in
    let q' := if (r <? half)%Z then q
              else if (half <? r)%Z then (q + 1)%Z
              else if Z.even q then q else (q + 1)%Z in
    (Z.sgn z * Z.shiftl q' e)%Z.

(** [seconds * 1000], a product of doubles. *)
Definition times1000 (seconds : Z) : Z := to_double (seconds * 1000).

(** [addKey]: every [parts.slice(0, index + 1).join(':')] is added. *)
Definition addKey (key : string) : method unit :=
  λ c, let parts := Str.split key in
       (Normal tt,
        with_keys c
          (foldl (λ ks index, ks ∪ {[ Str.join (Str.slice0 (S index) parts) ]})
             (keys c) (seq 0 (List.length parts)))).

(** The filter of [deleteKey]: [k === key || k.startsWith(key + ':')]. *)
Definition is_or_under (key k : string) : bool :=
  String.eqb k key || Str.startsWith k (key ++ ":").

(** [deleteKey]: the keys that pass the filter are deleted one by one. *)
Definition deleteKey (key : string) : method unit :=
  λ c, (Normal tt,
        with_keys c
          (foldl (λ ks k, ks ∖ {[ k ]}) (keys c)
             (List.filter (is_or_under key) (elements (keys c))))).

(** [has] *)
Definition has (key : string) : method bool :=
  λ c, (Normal (bool_decide (key ∈ keys c)), c).

(** [get] *)
Definition get (key : string) : method value :=
  λ c, if negb (bool_decide (key ∈ keys c)) then (Normal VUndefined, c)
       else (get_walk (store c) (Str.split key), c).

(** [delete] *)
Definition delete (key : string) : method unit :=
  deleteKey key >>
  on_store (λ s, delete_walk s (Str.split key)).

(** [set]; [ttl'] is the optional third argument.  Inside the [if] one of
    the two numbers is truthy, so [ttl ?? this.options.ttl] is defined. *)
Definition set (key : string) (v : value) (ttl' : option Z) : method unit :=
  addKey key >>
  on_store (λ s, set_walk s (Str.split key) v) >>
  λ c, if truthy ttl' || truthy (ttl (options c)) then
         match nullish ttl' (ttl (options c)) with
         | Some seconds => setTimeout key (times1000 seconds) c
         | None => (Normal tt, c)
         end
       else (Normal tt, c).

(** [clear] *)
Definition clear : method unit :=
  λ c, (Normal tt,
        {| options := options c; store := VObject ∅; keys := ∅;
           timeouts := timeouts c |}).

(** The [i]-th pending timeout fires: it leaves the pending ones and its
    callback runs [this.delete(key)]. *)
Definition expire (i : nat) : method unit :=
  λ c, match timeouts c !! i with
       | Some (key, _) =>
           delete key (with_timeouts c (take i (timeouts c) ++ drop (S i) (timeouts c)))
       | None => (Normal tt, c)
       end.

(** *** Runs of a client *)

Inductive operation : Type :=
  | OpGet (key : string)
  | OpSet (key : string) (v : value) (ttl' : option Z)
  | OpHas (key : string)
  | OpDelete (key : string)
  | OpClear
  | OpExpire (i : nat).

(** The instance after one operation, whether it returned or threw. *)
Definition step (c : t) (op : operation) : t :=
  match op with
  | OpGet key => snd (get key c)
  | OpSet key v ttl' => snd (set key v ttl' c)
  | OpHas key => snd (has key c)
  | OpDelete key => snd (delete key c)
  | OpClear => snd (clear c)
  | OpExpire i => snd (expire i c)
  end.

Definition run (o : CacheOptions) (ops : list operation) : t :=
  foldl step (construct o) ops.

Definition reachable (c : t) : Prop := ∃ o ops, c = run o ops.

(** The operation passes no object to [set]. *)
Definition sets_leaf (op : operation) : bool :=
  match op with
  | OpSet _ v _ => leaf v
  | _ => true
  end.

(** [new NodeCache()] *)
Definition no_options : CacheOptions := {| ttl := None; debug := false |}.

(** *** Properties of an instance *)

(** The key's path denotes a node of the value tree. *)
Definition denotes_node (tree : value) (key : string) : bool :=
  match resolve tree (Str.split key) with
  | Some _ => true
  | None => false
  end.

(** Every key whose path denotes a node of the value tree is indexed. *)
Definition resolved_indexed (c : t) : Prop :=
  ∀ k, denotes_node (store c) k = true → k ∈ keys c.

(** The index holds, with a key, every key it extends by a colon and more. *)
Definition ancestors_indexed (c : t) : Prop :=
  ∀ k p, k ∈ keys c → Str.startsWith k (p ++ ":") = true → p ∈ keys c.

(** The index and the value tree agree on which keys denote a node. *)
Definition index_tree_synchronized (c : t) : Prop :=
  ∀ k, k ∈ keys c ↔ denotes_node (store c) k = true.

(** *** Paths and runs *)

(** The walk along [parts] reaches a value that is no object while
    segments remain: a leaf lies on the path before its end. *)
Fixpoint crosses_leaf (tree : value) (parts : list string) : bool :=
  match parts with
  | [] => false
  | part :: rest =>
      match tree with
      | VObject m =>
          match m !! part with
          | Some child => crosses_leaf child rest
          | None => false
          end
      | _ => true
      end
  end.



(** The operation is a call of a method, not a timeout that fires. *)
Definition is_call (op : operation) : bool :=
  match op with
  | OpExpire _ => false
  | _ => true
  end.

(** The string-keyed members of the standard [Object.prototype], which
    every plain object inherits. *)
Definition object_prototype_members : list string :=
  ["constructor"; "hasOwnProperty"; "isPrototypeOf"; "propertyIsEnumerable";
   "toLocaleString"; "toString"; "valueOf"; "__proto__";
   "__defineGetter__"; "__defineSetter__"; "__lookupGetter__";
   "__lookupSetter__"].

Definition inherited (part : string) : bool :=
  existsb (String.eqb part) object_prototype_members.

(** No segment of the key names an inherited member: on its path
    [part in current] holds exactly of the own properties. *)
Definition plain_key (key : string) : bool :=
  forallb (λ part, negb (inherited part)) (Str.split key).

(** The operation passes only plain keys to the methods that write. *)
Definition plain_op (op : operation) : bool :=
  match op with
  | OpSet key _ _ | OpDelete key => plain_key key
  | _ => true
  end.



End NodeCache.

(** ** Facts about keys as strings *)

Section key_strings.

Import Str.

Lemma split_nonempty (s : string) : split s ≠ [].
Proof.
  destruct s as [|c r]; simpl; [done|].
  destruct (Ascii.eqb c ":"); [done|]. by destruct (split r).
Qed.

Lemma split_cons (s : string) : ∃ seg segs, split s = seg :: segs.
Proof.
  pose proof (split_nonempty s) as H.
  destruct (split s) as [|seg segs]; [done|]. eauto.
Qed.

Lemma join_cons (seg : string) (rest : list string) :
  rest ≠ [] → join (seg :: rest) = seg ++ ":" ++ join rest.
Proof. by destruct rest. Qed.

(** Joining what [split] returned gives the key back. *)
Lemma join_split (s : string) : join (split s) = s.
Proof.
  induction s as [|c r IH]; [done|]. simpl split.
  destruct (Ascii.eqb_spec c ":") as [->|Hc].
  - rewrite join_cons by apply split_nonempty. simpl. by rewrite IH.
  - destruct (split_cons r) as (seg & segs & E). rewrite E in IH |- *.
    destruct segs as [|seg' segs].
    + simpl in *. by rewrite IH.
    + rewrite join_cons by done. rewrite join_cons in IH by done.
      by rewrite <- IH.
Qed.

Lemma split_colon_free (s : string) : Forall (λ seg, colon_free seg = true) (split s).
Proof.
  induction s as [|c r IH]; simpl.
  - by repeat constructor.
  - destruct (Ascii.eqb c ":") eqn:Hc; [by constructor|].
    destruct (split r) as [|seg segs]; simpl.
    + repeat constructor. simpl. by rewrite Hc.
    + inversion IH; subst. constructor; [|done]. simpl. by rewrite Hc.
Qed.

Lemma split_segment (seg : string) : colon_free seg = true → split seg = [seg].
Proof.
  induction seg as [|c r IH]; simpl; [done|].
  destruct (Ascii.eqb c ":"); simpl; [done|]. intros H. by rewrite IH.
Qed.

Lemma split_segment_colon (seg rest : string) :
  colon_free seg = true → split (seg ++ ":" ++ rest) = seg :: split rest.
Proof.
  induction seg as [|c r IH]; simpl; [done|].
  destruct (Ascii.eqb c ":"); simpl; [done|]. intros H. by rewrite IH.
Qed.

(** Splitting what [join] returned gives the segments back. *)
Lemma split_join (parts : list string) :
  parts ≠ [] → Forall (λ seg, colon_free seg = true) parts →
  split (join parts) = parts.
Proof.
  induction parts as [|seg rest IH]; [done|]. intros _ Hfree.
  inversion Hfree as [|? ? Hseg Hrest]; subst.
  destruct rest as [|seg' rest].
  - by apply split_segment.
  - rewrite join_cons by done. rewrite split_segment_colon by done.
    by rewrite IH.
Qed.

(** A colon between two strings separates their segments. *)
Lemma split_app_colon (a b : string) : split (a ++ ":" ++ b) = (split a ++ split b)%list.
Proof.
  induction a as [|c r IH]; [done|]. simpl.
  destruct (Ascii.eqb c ":"); [by rewrite IH|].
  rewrite IH. by destruct (split_cons r) as (seg & segs & ->).
Qed.

Lemma startsWith_app (p r : string) : startsWith (p ++ r) p = true.
Proof.
  induction p as [|b p IH]; [done|]. simpl. by rewrite Ascii.eqb_refl, IH.
Qed.

Lemma startsWith_inv (s p : string) :
  startsWith s p = true → ∃ r, s = p ++ r.
Proof.
  revert s. induction p as [|b p IH]; intros s H; simpl in H.
  - by exists s.
  - destruct s as [|a s]; [done|]. apply andb_prop in H as [Hab Hs].
    apply Ascii.eqb_eq in Hab as ->. destruct (IH _ Hs) as [r ->]. by exists r.
Qed.

Lemma string_app_assoc (a b c : string) : (a ++ b) ++ c = a ++ (b ++ c).
Proof.
  induction a as [|x a IH]; [done|].
  change (String x ((a ++ b) ++ c) = String x (a ++ b ++ c)). by rewrite IH.
Qed.

Lemma startsWith_trans (s p p' : string) :
  startsWith s p = true → startsWith p p' = true → startsWith s p' = true.
Proof.
  intros [r ->]%startsWith_inv [r' ->]%startsWith_inv.
  rewrite string_app_assoc. apply startsWith_app.
Qed.

End key_strings.

(** ** Facts about the walks *)

Section walks.

Implicit Types (cur child v : value) (parts q : list string).

Lemma resolve_leaf v q : leaf v = true → is_Some (resolve v q) → q = [].
Proof. destruct q as [|p q]; [done|]. destruct v; simpl; by intros ? []. Qed.

Lemma resolve_empty_object q : is_Some (resolve (VObject ∅) q) → q = [].
Proof.
  destruct q as [|p q]; [done|]. simpl. rewrite lookup_empty. by intros [].
Qed.

(** Where the path denotes a node, the loop of [get] returns it. *)
Lemma get_walk_resolve parts : ∀ cur v,
  resolve cur parts = Some v → get_walk cur parts = Normal v.
Proof.
  induction parts as [|p rest IH]; intros cur v; simpl.
  - by intros [= ->].
  - destruct cur as [| | | | |m]; try done.
    destruct (m !! p) as [child|]; simpl; [apply IH | done].
Qed.

(** The walk of [set] does not throw below a fresh object. *)
Lemma set_walk_fresh parts v : fst (set_walk (VObject ∅) parts v) = Normal tt.
Proof.
  induction parts as [|p rest IH]; [done|]. simpl.
  destruct rest as [|p' rest]; [done|].
  rewrite lookup_empty. simpl default.
  by destruct (set_walk (VObject ∅) (p' :: rest) v) as [r child'].
Qed.

(** A walk of [set] that throws has changed nothing. *)
Lemma set_walk_throw parts : ∀ cur v e,
  fst (set_walk cur parts v) = Throw e → snd (set_walk cur parts v) = cur.
Proof.
  induction parts as [|p rest IH]; intros cur v e; [done|]. simpl.
  destruct rest as [|p' rest].
  - by destruct cur.
  - destruct cur as [| | | | |m]; try done.
    destruct (m !! p) as [child|] eqn:Hp; simpl default.
    + specialize (IH child v e).
      destruct (set_walk child (p' :: rest) v) as [r child']; simpl in *.
      intros Hr. rewrite (IH Hr). by rewrite insert_id.
    + pose proof (set_walk_fresh (p' :: rest) v) as Hfresh.
      destruct (set_walk (VObject ∅) (p' :: rest) v) as [r child']; simpl in *.
      congruence.
Qed.

(** After a walk of [set] that returned, the path denotes the value. *)
Lemma set_walk_stores parts : ∀ cur v,
  parts ≠ [] → fst (set_walk cur parts v) = Normal tt →
  resolve (snd (set_walk cur parts v)) parts = Some v.
Proof.
  induction parts as [|p rest IH]; intros cur v Hne; [done|]. simpl.
  destruct rest as [|p' rest].
  - destruct cur; try done. simpl. by rewrite lookup_insert_eq.
  - destruct cur as [| | | | |m]; try done.
    specialize (IH (default (VObject ∅) (m !! p)) v).
    destruct (set_walk (default (VObject ∅) (m !! p)) (p' :: rest) v)
      as [r child']; simpl in *.
    intros Hr. rewrite lookup_insert_eq. simpl. by apply IH.
Qed.

(** A walk of [set] with a leaf adds no node outside the path. *)
Lemma set_walk_resolve parts : ∀ cur v q,
  leaf v = true →
  is_Some (resolve (snd (set_walk cur parts v)) q) →
  is_Some (resolve cur q) ∨ q `prefix_of` parts.
Proof.
  induction parts as [|p rest IH]; intros cur v q Hv; [by left|]. simpl.
  destruct rest as [|p' rest].
  - destruct cur as [| | | | |m]; try by left.
    destruct q as [|p0 q]; [by left|]. simpl.
    destruct (decide (p = p0)) as [->|Hp].
    + rewrite lookup_insert_eq. simpl. intros Hq.
      rewrite (resolve_leaf v q Hv Hq). by right.
    + rewrite lookup_insert_ne by done. by left.
  - destruct cur as [| | | | |m]; try by left.
    specialize (IH (default (VObject ∅) (m !! p)) v).
    destruct (set_walk (default (VObject ∅) (m !! p)) (p' :: rest) v)
      as [r child']; simpl in *.
    destruct q as [|p0 q]; [by left|]. simpl.
    destruct (decide (p = p0)) as [->|Hp].
    + rewrite lookup_insert_eq. simpl. intros Hq.
      destruct (IH q Hv Hq) as [Hold|Hpre].
      * destruct (m !! p0) as [child|] eqn:Hp0; simpl in *; [by left|].
        rewrite (resolve_empty_object q Hold). right.
        by apply prefix_cons, prefix_nil.
      * right. by apply prefix_cons.
    + rewrite lookup_insert_ne by done. by left.
Qed.

Lemma delete_property_resolve cur p q :
  is_Some (resolve (snd (delete_property cur p)) q) →
  is_Some (resolve cur q) ∧ ¬ [p] `prefix_of` q.
Proof.
  destruct q as [|p0 q].
  - intros _. split; [done|]. by intros ?%prefix_nil_inv.
  - destruct cur as [| | | |s|m]; simpl; try by intros [].
    + destruct (string_own_property s p); simpl; by intros [].
    + destruct (decide (p = p0)) as [->|Hp].
      * rewrite lookup_delete_eq. by intros [].
      * rewrite lookup_delete_ne by done. intros H. split; [done|].
        intros [k Hk]. simpl in Hk. congruence.
Qed.

(** A walk of [delete] only removes nodes, and none at or under the path
    is left. *)
Lemma delete_walk_resolve parts : ∀ cur q,
  parts ≠ [] →
  is_Some (resolve (snd (delete_walk cur parts)) q) →
  is_Some (resolve cur q) ∧ ¬ parts `prefix_of` q.
Proof.
  induction parts as [|p rest IH]; intros cur q Hne; [done|]. simpl.
  destruct rest as [|p' rest]; [apply delete_property_resolve|].
  assert (∀ c, is_Some (resolve c q) → (∀ m, c = VObject m → m !! p = None) →
    is_Some (resolve c q) ∧ ¬ (p :: p' :: rest) `prefix_of` q) as Hstuck.
  { intros c Hq Hc. split; [done|]. intros [k ->].
    destruct c as [| | | | |m]; simpl in Hq; try by destruct Hq.
    rewrite (Hc m eq_refl) in Hq. by destruct Hq. }
  destruct cur as [| | | | |m]; try (intros H; by apply Hstuck).
  destruct (m !! p) as [child|] eqn:Hp.
  - specialize (IH child).
    destruct (delete_walk child (p' :: rest)) as [r child']; simpl in *.
    destruct q as [|p0 q].
    + intros _. split; [done|]. by intros ?%prefix_nil_inv.
    + simpl. destruct (decide (p = p0)) as [->|Hp0].
      * rewrite lookup_insert_eq, Hp. simpl. intros Hq.
        destruct (IH q ltac:(done) Hq) as [Hold Hpre]. split; [done|].
        intros Hpre'. apply Hpre. by apply prefix_cons_inv_2 in Hpre'.
      * rewrite lookup_insert_ne by done. intros H. split; [done|].
        intros [k Hk]. simpl in Hk. congruence.
  - intros H. apply Hstuck; [done|]. by intros ? [= <-].
Qed.

(** After a walk of [delete] the path denotes nothing. *)
Lemma delete_walk_excises parts cur :
  parts ≠ [] → resolve (snd (delete_walk cur parts)) parts = None.
Proof.
  intros Hne.
  destruct (resolve (snd (delete_walk cur parts)) parts) eqn:E; [|done].
  destruct (delete_walk_resolve parts cur parts Hne) as [_ []]; by rewrite ?E.
Qed.

Lemma delete_property_absent cur p :
  resolve cur [p] = None → snd (delete_property cur p) = cur.
Proof.
  destruct cur as [| | | |s|m]; simpl; try done.
  - by destruct (string_own_property s p).
  - destruct (m !! p) eqn:Hp; [done|]. intros _. by rewrite delete_id.
Qed.

(** A walk of [delete] along a path that denotes nothing changes nothing. *)
Lemma delete_walk_absent parts : ∀ cur,
  parts ≠ [] → resolve cur parts = None → snd (delete_walk cur parts) = cur.
Proof.
  induction parts as [|p rest IH]; intros cur Hne; [done|]. simpl.
  destruct rest as [|p' rest]; [apply delete_property_absent|].
  destruct cur as [| | | | |m]; try done.
  destruct (m !! p) as [child|] eqn:Hp; [|done].
  specialize (IH child).
  destruct (delete_walk child (p' :: rest)) as [r child'].
  intros Hq. simpl in IH |- *. rewrite IH by done. by rewrite insert_id.
Qed.

(** A walk of [delete] keeps every node whose path neither begins the
    deleted path nor lies at or under it. *)
Lemma delete_walk_frame parts : ∀ cur q,
  ¬ parts `prefix_of` q → ¬ q `prefix_of` parts →
  resolve (snd (delete_walk cur parts)) q = resolve cur q.
Proof.
  induction parts as [|p rest IH]; intros cur q Hunder Habove.
  { destruct Hunder. apply prefix_nil. }
  destruct q as [|p0 q]; [destruct Habove; apply prefix_nil|].
  simpl delete_walk. destruct rest as [|p' rest].
  - destruct cur as [| | | |s|m]; simpl; try done.
    + by destruct (string_own_property s p).
    + destruct (decide (p = p0)) as [->|Hp].
      * destruct Hunder. by apply prefix_cons, prefix_nil.
      * by rewrite lookup_delete_ne.
  - destruct cur as [| | | | |m]; try done.
    destruct (m !! p) as [child|] eqn:Hp; [|done].
    specialize (IH child q).
    destruct (delete_walk child (p' :: rest)) as [r child'].
    simpl in IH |- *. destruct (decide (p = p0)) as [->|Hp0].
    + rewrite lookup_insert_eq, Hp. simpl. apply IH.
      * intros Hpre. apply Hunder. by apply prefix_cons.
      * intros Hpre. apply Habove. by apply prefix_cons.
    + by rewrite lookup_insert_ne.
Qed.

Lemma resolve_app q : ∀ cur q',
  resolve cur (q ++ q')%list = resolve cur q ≫= λ node, resolve node q'.
Proof.
  induction q as [|p q IH]; intros cur q'; [done|]. simpl.
  destruct cur as [| | | | |m]; try done.
  destruct (m !! p) as [child|]; simpl; [apply IH | done].
Qed.

End walks.

Import NodeCache.

(** ** What each method does to the fields *)

Section fields.

Implicit Types (c : t) (key k : string) (v : value).

Lemma elem_of_foldl_add {A} (f : A → string) (l : list A) : ∀ (s : gset string) k,
  k ∈ foldl (λ ks a, ks ∪ {[ f a ]}) s l ↔ k ∈ s ∨ ∃ a, a ∈ l ∧ k = f a.
Proof.
  induction l as [|a l IH]; intros s k; simpl.
  - split; [by left|]. intros [?|(a & Ha & _)]; [done|]. by apply elem_of_nil in Ha.
  - rewrite IH, elem_of_union, elem_of_singleton. split.
    + intros [[?| ->]|(a' & Ha' & ->)].
      * by left.
      * right. exists a. split; [by left|done].
      * right. exists a'. split; [by right|done].
    + intros [?|(a' & Ha' & ->)]; [by left; left|].
      apply elem_of_cons in Ha' as [-> |Ha']; [by left; right|].
      right. by exists a'.
Qed.

Lemma elem_of_foldl_remove (l : list string) : ∀ (s : gset string) k,
  k ∈ foldl (λ ks a, ks ∖ {[ a ]}) s l ↔ k ∈ s ∧ k ∉ l.
Proof.
  induction l as [|a l IH]; intros s k; simpl.
  - split; [|by intros []]. intros ?. split; [done|]. apply not_elem_of_nil.
  - rewrite IH, not_elem_of_cons. set_solver.
Qed.

(** [addKey] adds the joined prefixes of the split key, and nothing else. *)
Lemma keys_addKey key c k :
  k ∈ keys (snd (addKey key c)) ↔
  k ∈ keys c ∨
  ∃ index, index < List.length (Str.split key) ∧
           k = Str.join (Str.slice0 (S index) (Str.split key)).
Proof.
  unfold addKey. simpl. rewrite elem_of_foldl_add. apply or_iff_compat_l.
  split; intros (i & Hi & ->); exists i; (split; [|done]).
  - apply elem_of_seq in Hi. lia.
  - apply elem_of_seq. lia.
Qed.

(** [deleteKey] removes the key and what starts with the key and a colon,
    and nothing else. *)
Lemma keys_deleteKey key c k :
  k ∈ keys (snd (deleteKey key c)) ↔ k ∈ keys c ∧ is_or_under key k = false.
Proof.
  unfold deleteKey. simpl. rewrite elem_of_foldl_remove.
  rewrite list_elem_of_In, filter_In, <- list_elem_of_In, elem_of_elements.
  destruct (is_or_under key k); naive_solver.
Qed.

Lemma delete_fields key c :
  snd (delete key c) =
  {| options := options c;
     store := snd (delete_walk (store c) (Str.split key));
     keys := keys (snd (deleteKey key c));
     timeouts := timeouts c |}.
Proof.
  unfold delete, bind, on_store, deleteKey. simpl.
  by destruct (delete_walk (store c) (Str.split key)).
Qed.

Lemma delete_keys key c :
  keys (snd (delete key c)) = keys (snd (deleteKey key c)).
Proof. by rewrite delete_fields. Qed.

Lemma delete_store key c :
  store (snd (delete key c)) = snd (delete_walk (store c) (Str.split key)).
Proof. by rewrite delete_fields. Qed.

Lemma delete_completion key c :
  fst (delete key c) = fst (delete_walk (store c) (Str.split key)).
Proof.
  unfold delete, bind, on_store, deleteKey. simpl.
  by destruct (delete_walk (store c) (Str.split key)).
Qed.

Lemma set_completion key v ttl' c :
  fst (set key v ttl' c) = fst (set_walk (store c) (Str.split key) v).
Proof.
  unfold set, bind, on_store, addKey, setTimeout. simpl.
  destruct (set_walk (store c) (Str.split key) v) as [[[]|e] s]; simpl; [|done].
  destruct (truthy ttl' || truthy (ttl (options c))); [|done].
  by destruct (nullish ttl' (ttl (options c))).
Qed.

Lemma set_store key v ttl' c :
  store (snd (set key v ttl' c)) = snd (set_walk (store c) (Str.split key) v).
Proof.
  unfold set, bind, on_store, addKey, setTimeout. simpl.
  destruct (set_walk (store c) (Str.split key) v) as [[[]|e] s]; simpl; [|done].
  destruct (truthy ttl' || truthy (ttl (options c))); [|done].
  by destruct (nullish ttl' (ttl (options c))).
Qed.

Lemma set_keys key v ttl' c :
  keys (snd (set key v ttl' c)) = keys (snd (addKey key c)).
Proof.
  unfold set, bind, on_store, addKey, setTimeout. simpl.
  destruct (set_walk (store c) (Str.split key) v) as [[[]|e] s]; simpl; [|done].
  destruct (truthy ttl' || truthy (ttl (options c))); [|done].
  by destruct (nullish ttl' (ttl (options c))).
Qed.

Lemma set_options key v ttl' c : options (snd (set key v ttl' c)) = options c.
Proof.
  unfold set, bind, on_store, addKey, setTimeout. simpl.
  destruct (set_walk (store c) (Str.split key) v) as [[[]|e] s]; simpl; [|done].
  destruct (truthy ttl' || truthy (ttl (options c))); [|done].
  by destruct (nullish ttl' (ttl (options c))).
Qed.

(** What [set] leaves in the list of pending timeouts. *)
Lemma set_timeouts key v ttl' c :
  timeouts (snd (set key v ttl' c)) =
  match fst (set key v ttl' c) with
  | Normal _ =>
      if truthy ttl' || truthy (ttl (options c)) then
        match nullish ttl' (ttl (options c)) with
        | Some seconds => (timeouts c ++ [(key, times1000 seconds)])%list
        | None => timeouts c
        end
      else timeouts c
  | Throw _ => timeouts c
  end.
Proof.
  unfold set, bind, on_store, addKey, setTimeout. simpl.
  destruct (set_walk (store c) (Str.split key) v) as [[[]|e] s]; simpl; [|done].
  destruct (truthy ttl' || truthy (ttl (options c))); [|done].
  by destruct (nullish ttl' (ttl (options c))).
Qed.

End fields.

(** ** The key index *)

Section index.

Implicit Types (c : t) (key k p : string) (v : value).

(** A key whose segments begin the segments of [key] is one of the
    prefixes [addKey key] adds. *)
Lemma addKey_prefix key k c :
  Str.split k `prefix_of` Str.split key → k ∈ keys (snd (addKey key c)).
Proof.
  intros [rest Hrest]. apply keys_addKey. right.
  destruct (split_cons k) as (seg & segs & Hk).
  exists (List.length segs). split.
  - rewrite Hrest, Hk, length_app. simpl. lia.
  - unfold Str.slice0. rewrite Hrest, Hk.
    change (seg :: segs) with ([seg] ++ segs)%list.
    rewrite <- (assoc_L (++)%list).
    change (S (List.length segs)) with (List.length ([seg] ++ segs)%list).
    rewrite (assoc_L (++)%list), take_app_length.
    change ([seg] ++ segs)%list with (seg :: segs).
    by rewrite <- Hk, join_split.
Qed.

Lemma addKey_self key c : key ∈ keys (snd (addKey key c)).
Proof. by apply addKey_prefix. Qed.

Lemma addKey_mono key k c : k ∈ keys c → k ∈ keys (snd (addKey key c)).
Proof. intros Hk. apply keys_addKey. by left. Qed.

(** The keys [addKey] adds are exactly those whose segments begin the
    segments of [key]. *)
Lemma addKey_inv key k c :
  k ∈ keys (snd (addKey key c)) →
  k ∈ keys c ∨ Str.split k `prefix_of` Str.split key.
Proof.
  intros [Hk|(index & Hindex & ->)]%keys_addKey; [by left|]. right.
  unfold Str.slice0. rewrite split_join.
  - apply prefix_take.
  - destruct (split_cons key) as (seg & segs & ->). done.
  - apply Forall_take, split_colon_free.
Qed.

(** What the filter of [deleteKey] accepts lies at or under the key. *)
Lemma is_or_under_prefix key k :
  is_or_under key k = true → Str.split key `prefix_of` Str.split k.
Proof.
  unfold is_or_under. intros [Heq|Hunder]%orb_prop.
  - by apply String.eqb_eq in Heq as ->.
  - apply startsWith_inv in Hunder as [r ->].
    rewrite string_app_assoc, split_app_colon. by apply prefix_app_r.
Qed.

Lemma is_or_under_self key : is_or_under key key = true.
Proof. unfold is_or_under. by rewrite String.eqb_refl. Qed.

Lemma startsWith_colon_prefix k p :
  Str.startsWith k (p ++ ":") = true → Str.split p `prefix_of` Str.split k.
Proof.
  intros [r ->]%startsWith_inv.
  rewrite string_app_assoc, split_app_colon. by apply prefix_app_r.
Qed.

End index.

(** ** Invariants of the reachable instances *)

Section invariants.

Implicit Types (c : t) (key k p : string) (v : value) (op : operation).

Lemma denotes_node_is_Some tree k :
  denotes_node tree k = true ↔ is_Some (resolve tree (Str.split k)).
Proof.
  unfold denotes_node. by destruct (resolve tree (Str.split k)); split.
Qed.

Lemma construct_resolved_indexed o : resolved_indexed (construct o).
Proof.
  intros k Hk%denotes_node_is_Some. apply resolve_empty_object in Hk.
  by destruct (split_nonempty k).
Qed.

Lemma set_resolved_indexed key v ttl' c :
  leaf v = true → resolved_indexed c → resolved_indexed (snd (set key v ttl' c)).
Proof.
  intros Hv Hc k. rewrite set_store, set_keys. intros Hk%denotes_node_is_Some.
  apply (set_walk_resolve _ _ _ _ Hv) in Hk as [Hold|Hpre].
  - by apply addKey_mono, Hc, denotes_node_is_Some.
  - by apply addKey_prefix.
Qed.

Lemma delete_resolved_indexed key c :
  resolved_indexed c → resolved_indexed (snd (delete key c)).
Proof.
  intros Hc k. rewrite delete_fields. simpl. intros Hk%denotes_node_is_Some.
  apply (delete_walk_resolve _ _ _ (split_nonempty key)) in Hk as [Hold Hpre].
  apply keys_deleteKey. split; [by apply Hc, denotes_node_is_Some|].
  destruct (is_or_under key k) eqn:Hunder; [|done].
  by apply is_or_under_prefix in Hunder.
Qed.

Lemma clear_resolved_indexed c : resolved_indexed (snd (clear c)).
Proof.
  intros k Hk%denotes_node_is_Some. simpl in Hk.
  apply resolve_empty_object in Hk. by destruct (split_nonempty k).
Qed.

Lemma expire_resolved_indexed i c :
  resolved_indexed c → resolved_indexed (snd (expire i c)).
Proof.
  intros Hc. unfold expire.
  destruct (timeouts c !! i) as [[key delay]|]; [|done].
  by apply delete_resolved_indexed.
Qed.

Lemma step_resolved_indexed op c :
  sets_leaf op = true → resolved_indexed c → resolved_indexed (step c op).
Proof.
  destruct op as [key|key v ttl'|key|key| |i]; simpl; intros Hop Hc.
  - unfold get. by destruct (negb _).
  - by apply set_resolved_indexed.
  - done.
  - by apply delete_resolved_indexed.
  - apply (clear_resolved_indexed c).
  - by apply expire_resolved_indexed.
Qed.

Lemma steps_resolved_indexed ops : ∀ c,
  forallb sets_leaf ops = true → resolved_indexed c →
  resolved_indexed (foldl step c ops).
Proof.
  induction ops as [|op ops IH]; intros c Hops Hc; [done|].
  simpl in Hops. apply andb_prop in Hops as [Hop Hops].
  simpl. apply IH; [done|]. by apply step_resolved_indexed.
Qed.

Lemma construct_ancestors_indexed o : ancestors_indexed (construct o).
Proof. intros k p Hk. by apply not_elem_of_empty in Hk. Qed.

Lemma set_ancestors_indexed key v ttl' c :
  ancestors_indexed c → ancestors_indexed (snd (set key v ttl' c)).
Proof.
  intros Hc k p. rewrite set_keys. intros Hk Hp.
  apply addKey_inv in Hk as [Hold|Hpre].
  - apply addKey_mono. by apply (Hc k).
  - apply addKey_prefix. etrans; [|done]. by apply startsWith_colon_prefix.
Qed.

Lemma delete_ancestors_indexed key c :
  ancestors_indexed c → ancestors_indexed (snd (delete key c)).
Proof.
  intros Hc k p. rewrite delete_fields. simpl.
  intros [Hk Hunder]%keys_deleteKey Hp. apply keys_deleteKey.
  split; [by apply (Hc k)|].
  destruct (is_or_under key p) eqn:Hkey; [|done].
  unfold is_or_under in Hkey, Hunder.
  apply orb_false_elim in Hunder as [_ Hunder]. rewrite <- Hunder.
  apply orb_prop in Hkey as [Heq|Hpre].
  - by apply String.eqb_eq in Heq as ->.
  - symmetry. apply (startsWith_trans k p); [|done].
    apply (startsWith_trans k (p ++ ":")); [done|apply startsWith_app].
Qed.

Lemma expire_ancestors_indexed i c :
  ancestors_indexed c → ancestors_indexed (snd (expire i c)).
Proof.
  intros Hc. unfold expire.
  destruct (timeouts c !! i) as [[key delay]|]; [|done].
  by apply delete_ancestors_indexed.
Qed.

Lemma step_ancestors_indexed op c :
  ancestors_indexed c → ancestors_indexed (step c op).
Proof.
  destruct op as [key|key v ttl'|key|key| |i]; simpl; intros Hc.
  - unfold get. by destruct (negb _).
  - by apply set_ancestors_indexed.
  - done.
  - by apply delete_ancestors_indexed.
  - intros k p Hk. by apply not_elem_of_empty in Hk.
  - by apply expire_ancestors_indexed.
Qed.

Lemma reachable_ancestors_indexed c : reachable c → ancestors_indexed c.
Proof.
  intros (o & ops & ->). unfold run.
  generalize (construct_ancestors_indexed o). generalize (construct o).
  induction ops as [|op ops IH]; intros c Hc; [done|].
  simpl. by apply IH, step_ancestors_indexed.
Qed.

End invariants.

(** ** Paths that cross a leaf *)

Section across_leaf.

Implicit Types (c : t) (key k : string) (v cur l : value).

Lemma set_walk_enter m p p' rest v :
  set_walk (VObject m) (p :: p' :: rest) v =
  let '(r, child') := set_walk (default (VObject ∅) (m !! p)) (p' :: rest) v in
  (r, VObject (<[p := child']> m)).
Proof. reflexivity. Qed.

(** When a proper, non-empty prefix of the path denotes a leaf, the walk
    of [set] throws and leaves the tree as it was. *)
Lemma set_walk_across_leaf (pre suf : list string) : ∀ cur l v,
  pre ≠ [] → suf ≠ [] → resolve cur pre = Some l → leaf l = true →
  set_walk cur (pre ++ suf)%list v = (Throw TypeError, cur).
Proof.
  induction pre as [|p pre IH]; intros cur l v Hpre Hsuf Hl Hleaf; [done|].
  simpl in Hl. destruct cur as [| | | | |m]; try done.
  destruct (m !! p) as [child|] eqn:Hp; [|done]. simpl in Hl.
  destruct pre as [|p' pre].
  - injection Hl as ->. destruct suf as [|s suf]; [done|].
    change ([p] ++ s :: suf)%list with (p :: s :: suf).
    rewrite set_walk_enter, Hp. simpl default.
    assert (set_walk l (s :: suf) v = (Throw TypeError, l)) as ->.
    { destruct suf; by destruct l. }
    by rewrite insert_id.
  - specialize (IH child l v ltac:(done) Hsuf Hl Hleaf).
    change ((p :: p' :: pre) ++ suf)%list with (p :: p' :: (pre ++ suf)%list).
    rewrite set_walk_enter, Hp. simpl default.
    change (p' :: (pre ++ suf)%list) with ((p' :: pre) ++ suf)%list.
    rewrite IH. by rewrite insert_id.
Qed.

(** Where [set] returns, a [get] of the same key returns the value. *)
Lemma set_get_returned key v ttl' c :
  fst (set key v ttl' c) = Normal tt →
  fst (get key (snd (set key v ttl' c))) = Normal v.
Proof.
  rewrite set_completion. intros Hret. unfold get.
  rewrite set_keys, set_store.
  rewrite bool_decide_eq_true_2 by apply addKey_self. simpl.
  apply get_walk_resolve, set_walk_stores; [apply split_nonempty|done].
Qed.

(** Where [set] of a key under [key] returns, [get(key)] returns the
    mapping that holds the value under the rest of the path. *)
Lemma set_get_directory key rest v ttl' c :
  let c' := snd (set (key ++ ":" ++ rest) v ttl' c) in
  fst (set (key ++ ":" ++ rest) v ttl' c) = Normal tt →
  ∃ m, fst (get key c') = Normal (VObject m) ∧
       resolve (VObject m) (Str.split rest) = Some v.
Proof.
  intros c'. rewrite set_completion. intros Hret.
  pose proof (set_walk_stores _ _ _ (split_nonempty _) Hret) as Hv.
  rewrite <- (set_store _ _ ttl') in Hv. fold c' in Hv.
  rewrite split_app_colon, resolve_app in Hv.
  destruct (resolve (store c') (Str.split key)) as [node|] eqn:Hnode; [|done].
  simpl in Hv. destruct (split_cons rest) as (seg & segs & Hrest).
  destruct node as [| | | | |m]; try (by rewrite Hrest in Hv).
  exists m. split; [|done]. unfold get.
  rewrite bool_decide_eq_true_2; [by apply get_walk_resolve|].
  unfold c'. rewrite set_keys. apply addKey_prefix.
  rewrite split_app_colon. by apply prefix_app_r.
Qed.

End across_leaf.

(** ** The properties of the specification *)

(** After [set("a:b", 1); set("a", 2)] the key ["a:b"] is in the index
    and its path denotes no node of the tree. *)
Lemma stale_index_entry :
  let c := run no_options [OpSet "a:b" (VNumber 1) None; OpSet "a" (VNumber 2) None] in
  "a:b" ∈ keys c ∧ denotes_node (store c) "a:b" = false.
Proof. by vm_compute. Qed.

(** After [set("a", {b: 1})] the path of ["a:b"] denotes a node and the
    key is not in the index. *)
Lemma unindexed_node :
  let c := run no_options [OpSet "a" (VObject {[ "b" := VNumber 1 ]}) None] in
  ("a:b" ∉ keys c) ∧ denotes_node (store c) "a:b" = true.
Proof. split; [|by vm_compute]. intros Hkey. by vm_compute in Hkey. Qed.

(** Not every reachable instance has its key index and its value tree
    synchronized. *)
Lemma index_tree_synchronized_fails :
  ¬ (∀ c, reachable c → index_tree_synchronized c).
Proof.
  intros Hsync.
  pose (c := run no_options [OpSet "a:b" (VNumber 1) None; OpSet "a" (VNumber 2) None]).
  assert (reachable c) as Hc by (by eexists _, _).
  destruct (Hsync c Hc "a:b") as [Hin _].
  destruct stale_index_entry as [Hkey Hnode]. fold c in Hkey, Hnode.
  apply Hin in Hkey. congruence.
Qed.

(** C1 at [set("a:b", 1); set("a", 2)]: the second [set] puts a leaf
    over the branch ["a"] and prunes nothing from the index, so ["a:b"]
    stays in the index while its path denotes no node: [has("a:b")] is
    true, [get("a:b")] throws, and the index and the tree are not
    synchronized.  A [delete("a")] in its place prunes ["a:b"]. *)
Theorem set_over_branch_leaves_stale_key :
  let c0 := run no_options [OpSet "a:b" (VNumber 1) None] in
  let c := snd (set "a" (VNumber 2) None c0) in
  fst (set "a" (VNumber 2) None c0) = Normal tt ∧
  fst (has "a:b" c) = Normal true ∧
  denotes_node (store c) "a:b" = false ∧
  fst (get "a:b" c) = Throw TypeError ∧
  ¬ index_tree_synchronized c ∧
  fst (has "a:b" (snd (delete "a" c0))) = Normal false.
Proof.
  intros c0 c.
  assert (fst (has "a:b" c) = Normal true) as Hhas by (by vm_compute).
  assert (denotes_node (store c) "a:b" = false) as Hnode by (by vm_compute).
  split; [by vm_compute|]. split; [done|]. split; [done|].
  split; [by vm_compute|]. split; [|by vm_compute].
  intros Hsync. destruct (Hsync "a:b") as [Hin _].
  assert ("a:b" ∈ keys c) as Hkey by (by vm_compute).
  apply Hin in Hkey. congruence.
Qed.

(** X19: in every instance reached by operations whose [set] calls store
    leaves (expiring timeouts included), every key whose path denotes a
    node of the value tree is in the key index. *)
Theorem resolved_keys_are_indexed (o : CacheOptions) (ops : list operation) (k : string) :
  forallb sets_leaf ops = true →
  denotes_node (store (run o ops)) k = true →
  fst (has k (run o ops)) = Normal true.
Proof.
  intros Hops Hk. simpl. f_equal. apply bool_decide_eq_true.
  by apply (steps_resolved_indexed ops (construct o) Hops (construct_resolved_indexed o)).
Qed.

Lemma resolved_keys_are_indexed_witness :
  let ops := [OpSet "a:b" (VNumber 1) (Some 5%Z); OpSet "a:c" VNull None;
              OpExpire 0; OpGet "a:c"] in
  forallb sets_leaf ops = true ∧
  denotes_node (store (run no_options ops)) "a:c" = true ∧
  fst (has "a:c" (run no_options ops)) = Normal true.
Proof.
  split; [reflexivity|]. split; [vm_compute; reflexivity|].
  apply (resolved_keys_are_indexed no_options); vm_compute; reflexivity.
Defined.

(** C2 at [set("a", 1)] followed by [set("a:b:c", 2); get("a:b:c")]: the
    [set] throws [TypeError], and so does the [get] that follows it; the
    value is not returned. *)
Theorem round_trip_fails_across_leaf :
  let c := run no_options [OpSet "a" (VNumber 1) None] in
  let c' := snd (set "a:b:c" (VNumber 2) None c) in
  fst (set "a:b:c" (VNumber 2) None c) = Throw TypeError ∧
  fst (get "a:b:c" c') = Throw TypeError ∧
  fst (get "a:b:c" c') ≠ Normal (VNumber 2).
Proof. by vm_compute. Qed.

(** C3 at an instance that holds the leaf [1] under ["a"]: [set], [get]
    and [delete] of keys under ["a"] each end in a thrown [TypeError]. *)
Theorem methods_throw_across_leaf :
  let c := run no_options [OpSet "a" (VNumber 1) None] in
  let c' := run no_options [OpSet "a:b" (VNumber 1) None; OpSet "a" (VNumber 2) None] in
  fst (set "a:b" (VNumber 2) None c) = Throw TypeError ∧
  fst (set "a:b:c" (VNumber 2) None c) = Throw TypeError ∧
  fst (delete "a:b:c" c) = Throw TypeError ∧
  fst (get "a:b" c') = Throw TypeError.
Proof. by vm_compute. Qed.

(** C4 at [set("a", 1)] followed by [set("a:b:c", 2)]: the [set] throws,
    ["a"] still holds the leaf [1], and neither ["a:b"] nor ["a:b:c"]
    holds anything. *)
Theorem set_keeps_leaf_on_path :
  let c := run no_options [OpSet "a" (VNumber 1) None] in
  let c' := snd (set "a:b:c" (VNumber 2) None c) in
  fst (set "a:b:c" (VNumber 2) None c) = Throw TypeError ∧
  resolve (store c') ["a"] = Some (VNumber 1) ∧
  resolve (store c') ["a"; "b"] = None ∧
  resolve (store c') ["a"; "b"; "c"] = None.
Proof. by vm_compute. Qed.

(** C5: [delete(key)] removes from the key index exactly [key] and the
    keys that start with [key] and a colon; afterwards the path of [key]
    denotes no node of the value tree, while every path that neither
    begins the path of [key] nor lies at or under it denotes what it
    did; and after [set("x:y:z", 1); delete("x:y")], [has("x:y:z")] is
    false and [has("x")] is true. *)
Theorem delete_cascades :
  (∀ (c : t) (key k : string),
     k ∈ keys (snd (delete key c)) ↔
     k ∈ keys c ∧ k ≠ key ∧ Str.startsWith k (key ++ ":") = false) ∧
  (∀ (c : t) (key : string),
     resolve (store (snd (delete key c))) (Str.split key) = None ∧
     ∀ q : list string,
       ¬ Str.split key `prefix_of` q → ¬ q `prefix_of` Str.split key →
       resolve (store (snd (delete key c))) q = resolve (store c) q) ∧
  (∀ o : CacheOptions,
     let c := run o [OpSet "x:y:z" (VNumber 1) None; OpDelete "x:y"] in
     fst (has "x:y:z" c) = Normal false ∧ fst (has "x" c) = Normal true).
Proof.
  assert (∀ (c : t) (key k : string),
     k ∈ keys (snd (delete key c)) ↔
     k ∈ keys c ∧ k ≠ key ∧ Str.startsWith k (key ++ ":") = false) as Hkeys.
  { intros c key k. rewrite delete_keys, keys_deleteKey.
    unfold is_or_under. rewrite orb_false_iff.
    destruct (String.eqb_spec k key); naive_solver. }
  split; [done|]. split.
  - intros c key. rewrite delete_store. split.
    + apply delete_walk_excises, split_nonempty.
    + intros q. apply delete_walk_frame.
  - intros o. unfold run. simpl foldl. unfold has. simpl fst. split; f_equal.
    + apply bool_decide_eq_false. rewrite Hkeys. by intros (_ & _ & ?).
    + apply bool_decide_eq_true. rewrite Hkeys, set_keys.
      split; [|done]. by apply addKey_prefix, prefix_cons, prefix_nil.
Qed.

(** When its timeout fires, the key is deleted from the index. *)
Lemma expire_deletes i key delay c :
  timeouts c !! i = Some (key, delay) →
  fst (has key (snd (expire i c))) = Normal false.
Proof.
  intros Hi. unfold expire. rewrite Hi. unfold has. simpl fst. f_equal.
  apply bool_decide_eq_false. rewrite delete_keys, keys_deleteKey.
  rewrite is_or_under_self. by intros [].
Qed.

(** When its timeout fires, the node of the key is removed from the
    value tree. *)
Lemma expire_excises i key delay c :
  timeouts c !! i = Some (key, delay) →
  denotes_node (store (snd (expire i c))) key = false.
Proof.
  intros Hi. unfold expire. rewrite Hi. unfold denotes_node.
  rewrite delete_store. by rewrite delete_walk_excises by apply split_nonempty.
Qed.

Lemma to_double_exact (z : Z) : (Z.abs z < 2 ^ 53)%Z → to_double z = z.
Proof. intros Hz. unfold to_double. by rewrite (proj2 (Z.ltb_lt _ _) Hz). Qed.

(** C6 at [new NodeCache({ttl: 60})] and [set("k", 1, 0)]: the explicit
    [0] passes the test [ttl || this.options.ttl] through the default and
    is then picked by [ttl ?? this.options.ttl], so a timeout with delay
    [0] is armed and the key is deleted when it fires; in an instance
    without a default the same call arms none.  At [0] the default
    decides whether the entry expires. *)
Theorem explicit_zero_ttl_follows_default :
  let with_default := construct {| ttl := Some 60%Z; debug := false |} in
  let c := snd (set "k" (VNumber 1) (Some 0%Z) with_default) in
  fst (set "k" (VNumber 1) (Some 0%Z) with_default) = Normal tt ∧
  timeouts c = [("k", 0%Z)] ∧
  timeouts (snd (set "k" (VNumber 1) (Some 0%Z) (construct no_options))) = [] ∧
  fst (get "k" c) = Normal (VNumber 1) ∧
  fst (has "k" (snd (expire 0 c))) = Normal false ∧
  fst (get "k" (snd (expire 0 c))) = Normal VUndefined ∧
  denotes_node (store (snd (expire 0 c))) "k" = false.
Proof. by vm_compute. Qed.

(** C7: when [key] is in the index and its path denotes a mapping node,
    [get(key)] returns that whole mapping; after [set("a:b", 1);
    set("a:c", 2)], [get("a")] returns the mapping of [b] to [1] and [c]
    to [2]. *)
Theorem get_returns_branch (c : t) (key : string) (m : gmap string value) :
  fst (has key c) = Normal true →
  resolve (store c) (Str.split key) = Some (VObject m) →
  fst (get key c) = Normal (VObject m).
Proof.
  unfold has, get. simpl. intros [= ->] Hm. simpl.
  by apply get_walk_resolve.
Qed.

Lemma get_returns_branch_witness :
  let c := run no_options
             [OpSet "a:b" (VNumber 1) None; OpSet "a:c" (VNumber 2) None] in
  let m : gmap string value := <["b" := VNumber 1]> (<["c" := VNumber 2]> ∅) in
  fst (has "a" c) = Normal true ∧
  resolve (store c) (Str.split "a") = Some (VObject m) ∧
  fst (get "a" c) = Normal (VObject m) ∧
  m !! "b" = Some (VNumber 1) ∧ m !! "c" = Some (VNumber 2).
Proof.
  split; [vm_compute; reflexivity|]. split; [vm_compute; reflexivity|].
  split; [|split; vm_compute; reflexivity].
  apply get_returns_branch; vm_compute; reflexivity.
Defined.

(** C8, as stated, fails: after [set("a", {b: 1})] the key ["a:b"] is
    not present ([has] is false, [get] returns [undefined]), and
    [delete("a:b")] removes [b] from the stored mapping. *)
Lemma delete_absent_key_changes_tree :
  ¬ (∀ (o : CacheOptions) (ops : list operation) (k : string),
       fst (has k (run o ops)) = Normal false →
       delete k (run o ops) = (Normal tt, run o ops)).
Proof.
  intros Hnoop.
  specialize (Hnoop no_options
    [OpSet "a" (VObject {[ "b" := VNumber 1 ]}) None] "a:b"
    ltac:(vm_compute; reflexivity)).
  apply (f_equal (λ r, resolve (store (snd r)) ["a"; "b"])) in Hnoop.
  by vm_compute in Hnoop.
Qed.

(** C8, amended: in every reachable instance, for every key that is not
    in the key index and whose path denotes no node of the value tree,
    [delete] leaves the key index and the value tree (the whole instance)
    unchanged. *)
Theorem delete_absent_key_unchanged (o : CacheOptions) (ops : list operation) (k : string) :
  fst (has k (run o ops)) = Normal false →
  denotes_node (store (run o ops)) k = false →
  snd (delete k (run o ops)) = run o ops.
Proof.
  assert (reachable (run o ops)) as Hreach by (by exists o, ops).
  apply reachable_ancestors_indexed in Hreach.
  generalize dependent (run o ops). intros c Hanc. unfold has. simpl.
  intros [= Hk%bool_decide_eq_false] Hnode.
  assert (resolve (store c) (Str.split k) = None) as Hnone.
  { unfold denotes_node in Hnode. by destruct (resolve (store c) (Str.split k)). }
  assert (keys (snd (deleteKey k c)) = keys c) as Hkeys.
  { apply set_eq. intros k'. rewrite keys_deleteKey. split; [by intros []|].
    intros Hk'. split; [done|].
    destruct (is_or_under k k') eqn:Hunder; [|done]. unfold is_or_under in Hunder.
    apply orb_prop in Hunder as [Heq|Hpre].
    - apply String.eqb_eq in Heq as ->. done.
    - destruct Hk. by apply (Hanc k'). }
  rewrite delete_fields, Hkeys.
  rewrite (delete_walk_absent _ _ (split_nonempty k) Hnone). by destruct c.
Qed.

Lemma delete_absent_key_unchanged_witness :
  let ops := [OpSet "a:b" (VNumber 1) None; OpSet "c" (VString "v") (Some 2%Z)] in
  fst (has "a:x:y" (run no_options ops)) = Normal false ∧
  denotes_node (store (run no_options ops)) "a:x:y" = false ∧
  snd (delete "a:x:y" (run no_options ops)) = run no_options ops.
Proof.
  split; [vm_compute; reflexivity|]. split; [vm_compute; reflexivity|].
  apply (delete_absent_key_unchanged no_options); vm_compute; reflexivity.
Defined.

(** C9: [set] never removes a key from the index: a key for which [has]
    is true before [set(key, v)] has it true afterwards, whether the
    [set] returns or throws. *)
Theorem set_keeps_index (c : t) (key : string) (v : value) (ttl' : option Z) (k' : string) :
  fst (has k' c) = Normal true →
  fst (has k' (snd (set key v ttl' c))) = Normal true.
Proof.
  unfold has. simpl. intros [= Hk'%bool_decide_eq_true]. f_equal.
  apply bool_decide_eq_true. rewrite set_keys. by apply addKey_mono.
Qed.

Lemma set_keeps_index_witness :
  let c := run no_options [OpSet "a:b" (VNumber 1) None] in
  fst (has "a:b" c) = Normal true ∧
  fst (has "a:b" (snd (set "a" (VNumber 2) None c))) = Normal true ∧
  denotes_node (store (snd (set "a" (VNumber 2) None c))) "a:b" = false.
Proof.
  split; [vm_compute; reflexivity|]. split; [|vm_compute; reflexivity].
  apply set_keeps_index; vm_compute; reflexivity.
Defined.

(** C10: [get] and [has] leave the instance as it was: the value tree,
    the key index and the pending timeouts are unchanged, whatever the
    key and whether [get] returns or throws. *)
Theorem get_has_observe_only (c : t) (key : string) :
  snd (get key c) = c ∧ snd (has key c) = c.
Proof.
  split; [|done]. unfold get. by destruct (negb (bool_decide (key ∈ keys c))).
Qed.

(** ** Further facts about the walks *)

Section more_walks.

Implicit Types (cur child v : value) (parts q : list string).


(** [crosses_leaf] in terms of the nodes the path denotes: a proper
    prefix of the path denotes a leaf. *)
Lemma crosses_leaf_resolve parts : ∀ cur,
  crosses_leaf cur parts = true ↔
  ∃ pre suf l, parts = (pre ++ suf)%list ∧ suf ≠ [] ∧
               resolve cur pre = Some l ∧ leaf l = true.
Proof.
  induction parts as [|p rest IH]; intros cur; simpl.
  - split; [done|]. intros (pre & suf & l & Hparts & Hsuf & _).
    symmetry in Hparts. apply app_eq_nil in Hparts as [_ ->]. done.
  - assert (leaf cur = true →
      ∃ pre suf l, p :: rest = (pre ++ suf)%list ∧ suf ≠ [] ∧
                   resolve cur pre = Some l ∧ leaf l = true) as Hleaf.
    { intros Hcur. by exists [], (p :: rest), cur. }
    destruct cur as [| | | | |m]; try (split; [intros _; by apply Hleaf | done]).
    split.
    + destruct (m !! p) as [child|] eqn:Hp; [|done].
      intros (pre & suf & l & -> & Hsuf & Hl & Hlf)%IH.
      exists (p :: pre), suf, l. simpl. by rewrite Hp.
    + intros (pre & suf & l & Hparts & Hsuf & Hl & Hlf).
      destruct pre as [|p0 pre].
      * simpl in Hl. by injection Hl as <-.
      * simpl in Hparts, Hl. injection Hparts as <- ->.
        destruct (m !! p) as [child|]; [|done]. simpl in Hl.
        apply IH. by exists pre, suf, l.
Qed.

(** The loop of [get] throws exactly when a leaf lies on the path. *)
Lemma get_walk_throws parts : ∀ cur,
  get_walk cur parts = Throw TypeError ↔ crosses_leaf cur parts = true.
Proof.
  induction parts as [|p rest IH]; intros cur; simpl; [done|].
  destruct cur as [| | | | |m]; try done.
  destruct (m !! p) as [child|]; [apply IH | done].
Qed.

Lemma crosses_leaf_fresh parts : crosses_leaf (VObject ∅) parts = false.
Proof. destruct parts as [|p rest]; [done|]. simpl. by rewrite lookup_empty. Qed.

(** The walk of [set] throws exactly when a leaf lies on the path. *)
Lemma set_walk_throws parts : ∀ cur v,
  fst (set_walk cur parts v) = Throw TypeError ↔ crosses_leaf cur parts = true.
Proof.
  induction parts as [|p rest IH]; intros cur v; simpl; [done|].
  destruct rest as [|p' rest].
  - destruct cur as [| | | | |m]; simpl; try done.
    by destruct (m !! p).
  - destruct cur as [| | | | |m]; try done.
    specialize (IH (default (VObject ∅) (m !! p)) v).
    destruct (set_walk (default (VObject ∅) (m !! p)) (p' :: rest) v)
      as [r child'].
    destruct (m !! p) as [child|]; simpl in IH |- *; [done|].
    by rewrite IH, lookup_empty.
Qed.

Lemma completion_cases (r : completion unit) :
  r = Normal tt ∨ r = Throw TypeError.
Proof. destruct r as [[]|[]]; [by left | by right]. Qed.

(** A walk of [delete] that throws has changed nothing. *)
Lemma delete_walk_throw parts : ∀ cur e,
  fst (delete_walk cur parts) = Throw e → snd (delete_walk cur parts) = cur.
Proof.
  assert (∀ cur p e, fst (delete_property cur p) = Throw e →
                     snd (delete_property cur p) = cur) as Hprop.
  { intros [| | | |s|m] p e; simpl; try done.
    by destruct (string_own_property s p). }
  induction parts as [|p rest IH]; intros cur e; simpl; [apply Hprop|].
  destruct rest as [|p' rest]; [apply Hprop|].
  destruct cur as [| | | | |m]; try done.
  destruct (m !! p) as [child|] eqn:Hp; [|done].
  specialize (IH child e).
  destruct (delete_walk child (p' :: rest)) as [r child']. simpl in IH |- *.
  intros Hr. rewrite (IH Hr). by rewrite insert_id.
Qed.

(** The walk of [delete] returns when no leaf lies on the path. *)
Lemma delete_walk_returns parts : ∀ cur,
  parts ≠ [] → crosses_leaf cur parts = false →
  fst (delete_walk cur parts) = Normal tt.
Proof.
  induction parts as [|p rest IH]; intros cur Hne; simpl; [done|].
  destruct rest as [|p' rest].
  - by destruct cur.
  - destruct cur as [| | | | |m]; try done.
    destruct (m !! p) as [child|] eqn:Hp; [|done].
    specialize (IH child).
    destruct (delete_walk child (p' :: rest)) as [r child']. simpl in IH |- *.
    by apply IH.
Qed.



(** The walks keep an object at the root. *)
Lemma set_walk_object m parts v :
  ∃ m', snd (set_walk (VObject m) parts v) = VObject m'.
Proof.
  destruct parts as [|p [|p' rest]]; [by eexists..|].
  rewrite set_walk_enter.
  destruct (set_walk (default (VObject ∅) (m !! p)) (p' :: rest) v).
  by eexists.
Qed.

Lemma delete_walk_object m parts :
  ∃ m', snd (delete_walk (VObject m) parts) = VObject m'.
Proof.
  destruct parts as [|p [|p' rest]]; [by eexists..|].
  change (delete_walk (VObject m) (p :: p' :: rest))
    with (match m !! p with
          | None => (Normal tt, VObject m)
          | Some child =>
              let '(r, child') := delete_walk child (p' :: rest) in
              (r, VObject (<[p := child']> m))
          end).
  destruct (m !! p) as [child|]; [|by eexists].
  destruct (delete_walk child (p' :: rest)). by eexists.
Qed.

End more_walks.

(** ** Further facts about the methods *)

Section more_fields.

Implicit Types (c : t) (key k p : string) (v : value) (op : operation).

Lemma has_true key c : fst (has key c) = Normal true ↔ key ∈ keys c.
Proof.
  unfold has. simpl. split.
  - intros [= H]. by apply bool_decide_eq_true in H.
  - intros H. by rewrite bool_decide_eq_true_2.
Qed.

Lemma has_false key c : fst (has key c) = Normal false ↔ key ∉ keys c.
Proof.
  unfold has. simpl. split.
  - intros [= H]. by apply bool_decide_eq_false in H.
  - intros H. by rewrite bool_decide_eq_false_2.
Qed.

Lemma get_completion key c :
  fst (get key c) =
  if bool_decide (key ∈ keys c) then get_walk (store c) (Str.split key)
  else Normal VUndefined.
Proof. unfold get. by destruct (bool_decide (key ∈ keys c)). Qed.

Lemma get_walk_returns parts : ∀ cur,
  crosses_leaf cur parts = false →
  get_walk cur parts = Normal (default VUndefined (resolve cur parts)).
Proof.
  induction parts as [|p rest IH]; intros cur; simpl; [done|].
  destruct cur as [| | | | |m]; try done.
  destruct (m !! p) as [child|]; simpl; [apply IH | done].
Qed.


Lemma delete_timeouts key c : timeouts (snd (delete key c)) = timeouts c.
Proof. by rewrite delete_fields. Qed.

Lemma delete_options key c : options (snd (delete key c)) = options c.
Proof. by rewrite delete_fields. Qed.

Lemma step_options op c : options (step c op) = options c.
Proof.
  destruct op as [key|key v ttl'|key|key| |i]; simpl; try done.
  - unfold get. by destruct (negb _).
  - apply set_options.
  - apply delete_options.
  - unfold expire. destruct (timeouts c !! i) as [[key delay]|]; [|done].
    by rewrite delete_options.
Qed.

Lemma steps_options ops : ∀ c, options (foldl step c ops) = options c.
Proof.
  induction ops as [|op ops IH]; intros c; [done|].
  simpl. by rewrite IH, step_options.
Qed.

(** A call of a method keeps the pending timeouts, and may add one. *)
Lemma step_timeouts op c :
  is_call op = true → timeouts c `prefix_of` timeouts (step c op).
Proof.
  destruct op as [key|key v ttl'|key|key| |i]; simpl; try done; intros _.
  - unfold get. by destruct (negb _).
  - rewrite set_timeouts. destruct (fst (set key v ttl' c)); [|done].
    destruct (truthy ttl' || truthy (ttl (options c))); [|done].
    destruct (nullish ttl' (ttl (options c))); [|done].
    by apply prefix_app_r.
  - by rewrite delete_timeouts.
Qed.

Lemma steps_timeouts ops : ∀ c,
  forallb is_call ops = true → timeouts c `prefix_of` timeouts (foldl step c ops).
Proof.
  induction ops as [|op ops IH]; intros c Hops; [done|].
  simpl in Hops. apply andb_prop in Hops as [Hop Hops]. simpl.
  etrans; [by apply step_timeouts | by apply IH].
Qed.

(** The value tree of a reachable instance is an object. *)
Lemma step_store_object op c :
  (∃ m, store c = VObject m) → ∃ m, store (step c op) = VObject m.
Proof.
  assert (∀ key c', (∃ m, store c' = VObject m) →
            ∃ m, store (snd (delete key c')) = VObject m) as Hdelete.
  { intros key c' [m Hm]. rewrite delete_store, Hm. apply delete_walk_object. }
  intros [m Hm]. destruct op as [key|key v ttl'|key|key| |i]; simpl.
  - unfold get. destruct (negb _); by exists m.
  - rewrite set_store, Hm. apply set_walk_object.
  - by exists m.
  - apply Hdelete. by exists m.
  - by eexists.
  - unfold expire. destruct (timeouts c !! i) as [[key delay]|]; [|by exists m].
    apply Hdelete. by exists m.
Qed.

Lemma run_store_object o ops : ∃ m, store (run o ops) = VObject m.
Proof.
  unfold run. assert (∃ m, store (construct o) = VObject m) as H by by eexists.
  revert H. generalize (construct o).
  induction ops as [|op ops IH]; intros c Hc; [done|].
  simpl. by apply IH, step_store_object.
Qed.

Lemma crosses_leaf_segment m key :
  Str.colon_free key = true → crosses_leaf (VObject m) (Str.split key) = false.
Proof.
  intros Hkey. rewrite split_segment by done. simpl. by destruct (m !! key).
Qed.

End more_fields.

(** ** More properties of the methods *)


(** X2: in every reachable instance the index holds, with a key, every
    key it extends by a colon and more. *)
Theorem index_closed_under_ancestors (o : CacheOptions) (ops : list operation) (k p : string) :
  fst (has k (run o ops)) = Normal true →
  Str.startsWith k (p ++ ":") = true →
  fst (has p (run o ops)) = Normal true.
Proof.
  rewrite !has_true. intros Hk Hp.
  assert (reachable (run o ops)) as Hreach by (by exists o, ops).
  by apply (reachable_ancestors_indexed _ Hreach k p).
Qed.

Lemma index_closed_under_ancestors_witness :
  let ops := [OpSet "a:b:c" (VNumber 1) None; OpSet "a:d" (VNumber 2) None;
              OpDelete "a:d"; OpSet "a" (VNumber 3) None] in
  fst (has "a:b:c" (run no_options ops)) = Normal true ∧
  Str.startsWith "a:b:c" ("a:b" ++ ":") = true ∧
  fst (has "a:b" (run no_options ops)) = Normal true.
Proof.
  split; [vm_compute; reflexivity|]. split; [reflexivity|].
  apply (index_closed_under_ancestors no_options _ "a:b:c");
    vm_compute; reflexivity.
Defined.

(** On own properties: when no leaf lies on the path of [key] before its
    end, [set(key, v)] returns, and then [has(key)] is true and
    [get(key)] returns [v]. *)
Lemma set_get_round_trip_own (c : t) (key : string) (v : value) (ttl' : option Z) :
  crosses_leaf (store c) (Str.split key) = false →
  fst (set key v ttl' c) = Normal tt ∧
  fst (has key (snd (set key v ttl' c))) = Normal true ∧
  fst (get key (snd (set key v ttl' c))) = Normal v.
Proof.
  intros Hpath.
  assert (fst (set key v ttl' c) = Normal tt) as Hret.
  { destruct (completion_cases (fst (set key v ttl' c))) as [H|H]; [done|].
    rewrite set_completion in H. apply set_walk_throws in H. congruence. }
  split; [done|]. split.
  - rewrite has_true, set_keys. apply addKey_self.
  - by apply set_get_returned.
Qed.

(** On own properties: [set(key, v)] throws [TypeError] exactly when a
    proper prefix of the path of [key] denotes a leaf of the value tree;
    the value and the ttl play no part. *)
Lemma set_throws_exactly_across_leaf_own (c : t) (key : string) (v : value) (ttl' : option Z) :
  fst (set key v ttl' c) = Throw TypeError ↔
  ∃ (pre suf : list string) (l : value),
    Str.split key = (pre ++ suf)%list ∧ suf ≠ [] ∧
    resolve (store c) pre = Some l ∧ leaf l = true.
Proof.
  rewrite set_completion, <- crosses_leaf_resolve. apply set_walk_throws.
Qed.

(** On own properties: [get(key)] throws [TypeError] exactly when [key]
    is in the index and a proper prefix of its path denotes a leaf of
    the value tree. *)
Lemma get_throws_exactly_across_leaf_own (c : t) (key : string) :
  fst (get key c) = Throw TypeError ↔
  fst (has key c) = Normal true ∧
  ∃ (pre suf : list string) (l : value),
    Str.split key = (pre ++ suf)%list ∧ suf ≠ [] ∧
    resolve (store c) pre = Some l ∧ leaf l = true.
Proof.
  rewrite get_completion, has_true, <- crosses_leaf_resolve.
  destruct (bool_decide (key ∈ keys c)) eqn:Hkey.
  - apply bool_decide_eq_true in Hkey. rewrite get_walk_throws. naive_solver.
  - apply bool_decide_eq_false in Hkey. naive_solver.
Qed.

(** X6: after [delete(key)], whether it returned or threw, [has] is
    false and [get] returns [undefined] for [key] and for every key that
    starts with [key] and a colon. *)
Theorem delete_then_absent (c : t) (key k : string) :
  is_or_under key k = true →
  fst (has k (snd (delete key c))) = Normal false ∧
  get k (snd (delete key c)) = (Normal VUndefined, snd (delete key c)).
Proof.
  intros Hk.
  assert (k ∉ keys (snd (delete key c))) as Hgone.
  { rewrite delete_keys, keys_deleteKey. rewrite Hk. by intros []. }
  split; [by apply has_false|].
  unfold get. by rewrite bool_decide_eq_false_2.
Qed.

Lemma delete_then_absent_witness :
  let c := run no_options [OpSet "a:b:c" (VNumber 1) None; OpSet "a:bb" (VNumber 2) None] in
  is_or_under "a:b" "a:b:c" = true ∧
  fst (has "a:b:c" (snd (delete "a:b" c))) = Normal false ∧
  fst (has "a:bb" (snd (delete "a:b" c))) = Normal true.
Proof.
  split; [reflexivity|]. split; [|vm_compute; reflexivity].
  apply (delete_then_absent _ "a:b" "a:b:c"). reflexivity.
Defined.

(** X7: a second [delete] of the same key changes nothing: the instance
    after two of them is the instance after one. *)
Theorem delete_twice (c : t) (key : string) :
  snd (delete key (snd (delete key c))) = snd (delete key c).
Proof.
  set (c1 := snd (delete key c)).
  assert (resolve (store c1) (Str.split key) = None) as Hnone.
  { unfold c1. rewrite delete_store. apply delete_walk_excises, split_nonempty. }
  assert (keys (snd (deleteKey key c1)) = keys c1) as Hkeys.
  { apply set_eq. intros k. rewrite keys_deleteKey. split; [by intros []|].
    intros Hk. split; [done|]. unfold c1 in Hk.
    rewrite delete_keys, keys_deleteKey in Hk. by destruct Hk. }
  rewrite delete_fields, Hkeys.
  rewrite (delete_walk_absent _ _ (split_nonempty key) Hnone). by destruct c1.
Qed.



(** X10: no method cancels a pending timeout: after any calls of [get],
    [set], [has], [delete] and [clear], a timeout that was pending is
    still pending, and when it fires its key is deleted, also when the
    key was set again in between. *)
Theorem timeouts_survive_calls (c : t) (ops : list operation) (i : nat)
    (key : string) (delay : Z) :
  forallb is_call ops = true →
  timeouts c !! i = Some (key, delay) →
  timeouts (foldl step c ops) !! i = Some (key, delay) ∧
  fst (has key (snd (expire i (foldl step c ops)))) = Normal false.
Proof.
  intros Hops Hi.
  assert (timeouts (foldl step c ops) !! i = Some (key, delay)) as Hi'.
  { by apply (prefix_lookup_Some (timeouts c)); [|apply steps_timeouts]. }
  split; [done|]. by apply (expire_deletes i key delay).
Qed.

Lemma timeouts_survive_calls_witness :
  let c := snd (set "k" (VNumber 1) (Some 1%Z) (construct no_options)) in
  let ops := [OpDelete "k"; OpClear; OpSet "k" (VNumber 2) None; OpGet "k"] in
  forallb is_call ops = true ∧
  timeouts c !! 0 = Some ("k", 1000%Z) ∧
  fst (get "k" (foldl step c ops)) = Normal (VNumber 2) ∧
  fst (has "k" (snd (expire 0 (foldl step c ops)))) = Normal false.
Proof.
  split; [reflexivity|]. split; [vm_compute; reflexivity|].
  split; [vm_compute; reflexivity|].
  apply (timeouts_survive_calls
    (snd (set "k" (VNumber 1) (Some 1%Z) (construct no_options)))
    [OpDelete "k"; OpClear; OpSet "k" (VNumber 2) None; OpGet "k"]
    0 "k" 1000%Z); vm_compute; reflexivity.
Defined.

(** On own properties: a [set(key, v)] that throws leaves the value tree
    and the pending timeouts as they were, but [key] is in the index
    afterwards, and [get(key)] throws as well. *)
Lemma set_throw_leaves_tree_own (c : t) (key : string) (v : value) (ttl' : option Z) :
  fst (set key v ttl' c) = Throw TypeError →
  store (snd (set key v ttl' c)) = store c ∧
  timeouts (snd (set key v ttl' c)) = timeouts c ∧
  fst (has key (snd (set key v ttl' c))) = Normal true ∧
  fst (get key (snd (set key v ttl' c))) = Throw TypeError.
Proof.
  intros Hthrow.
  assert (store (snd (set key v ttl' c)) = store c) as Hstore.
  { rewrite set_store. apply (set_walk_throw _ _ _ TypeError).
    by rewrite <- (set_completion _ _ ttl'). }
  assert (key ∈ keys (snd (set key v ttl' c))) as Hkey.
  { rewrite set_keys. apply addKey_self. }
  split; [done|]. split; [by rewrite set_timeouts, Hthrow|].
  split; [by apply has_true|].
  rewrite get_completion, bool_decide_eq_true_2, Hstore by done.
  apply get_walk_throws. apply (set_walk_throws _ _ v).
  by rewrite <- (set_completion _ _ ttl').
Qed.

(** X12: a [delete(key)] that throws leaves the value tree and the
    pending timeouts as they were, but has removed [key] from the
    index. *)
Theorem delete_throw_leaves_tree (c : t) (key : string) :
  fst (delete key c) = Throw TypeError →
  store (snd (delete key c)) = store c ∧
  timeouts (snd (delete key c)) = timeouts c ∧
  fst (has key (snd (delete key c))) = Normal false.
Proof.
  intros Hthrow. split; [|split].
  - rewrite delete_store. apply (delete_walk_throw _ _ TypeError).
    by rewrite <- delete_completion.
  - apply delete_timeouts.
  - apply has_false. rewrite delete_keys, keys_deleteKey, is_or_under_self.
    by intros [].
Qed.

Lemma delete_throw_leaves_tree_witness :
  let c := run no_options [OpSet "a:b" (VNumber 1) None; OpSet "a" VNull None] in
  fst (delete "a:b" c) = Throw TypeError ∧
  fst (has "a:b" c) = Normal true ∧
  store (snd (delete "a:b" c)) = store c ∧
  fst (has "a:b" (snd (delete "a:b" c))) = Normal false.
Proof.
  split; [vm_compute; reflexivity|]. split; [vm_compute; reflexivity|].
  destruct (delete_throw_leaves_tree
    (run no_options [OpSet "a:b" (VNumber 1) None; OpSet "a" VNull None]) "a:b"
    ltac:(vm_compute; reflexivity)) as (Hstore & _ & Hhas).
  split; [exact Hstore | exact Hhas].
Defined.

(** On own properties: after [clear()] no key is in the index, every
    [get] returns [undefined] and every [set] returns; the options are
    kept, and so are the pending timeouts, which [clear] does not
    cancel. *)
Lemma clear_resets_own (c : t) :
  let c' := snd (clear c) in
  fst (clear c) = Normal tt ∧
  (∀ k : string, fst (has k c') = Normal false ∧ fst (get k c') = Normal VUndefined) ∧
  (∀ (key : string) (v : value) (ttl' : option Z),
     fst (set key v ttl' c') = Normal tt ∧
     fst (get key (snd (set key v ttl' c'))) = Normal v) ∧
  options c' = options c ∧ timeouts c' = timeouts c.
Proof.
  intros c'.
  assert (keys c' = ∅) as Hkeys by done.
  assert (store c' = VObject ∅) as Hstore by done.
  split; [done|]. split; [|split; [|done]].
  - intros k.
    assert (k ∉ keys c') as Hk by (rewrite Hkeys; apply not_elem_of_empty).
    split; [by apply has_false|].
    rewrite get_completion. by rewrite bool_decide_eq_false_2.
  - intros key v ttl'.
    assert (fst (set key v ttl' c') = Normal tt) as Hret.
    { rewrite set_completion, Hstore. apply set_walk_fresh. }
    split; [done|]. by apply set_get_returned.
Qed.

(** On own properties: a key without a colon never makes a method throw:
    in every reachable instance [set], [get] and [delete] of such a key
    return, and [get] after [set] returns the value. *)
Lemma flat_keys_never_throw_own (o : CacheOptions) (ops : list operation)
    (key : string) (v : value) (ttl' : option Z) :
  Str.colon_free key = true →
  let c := run o ops in
  fst (set key v ttl' c) = Normal tt ∧
  fst (get key (snd (set key v ttl' c))) = Normal v ∧
  fst (delete key c) = Normal tt ∧
  fst (get key c) ≠ Throw TypeError.
Proof.
  intros Hkey c. destruct (run_store_object o ops) as [m Hm]. fold c in Hm.
  assert (crosses_leaf (store c) (Str.split key) = false) as Hpath.
  { rewrite Hm. by apply crosses_leaf_segment. }
  assert (fst (set key v ttl' c) = Normal tt) as Hret.
  { destruct (completion_cases (fst (set key v ttl' c))) as [H|H]; [done|].
    rewrite set_completion in H. apply set_walk_throws in H. congruence. }
  split; [done|]. split; [by apply set_get_returned|]. split.
  - rewrite delete_completion. by apply delete_walk_returns; [apply split_nonempty|].
  - rewrite get_completion. destruct (bool_decide (key ∈ keys c)); [|done].
    rewrite get_walk_throws. congruence.
Qed.

(** On own properties: [delete(key)] returns when no leaf lies on the
    path of [key] before its end, whether or not the key is present. *)
Lemma delete_returns_off_leaves_own (c : t) (key : string) :
  crosses_leaf (store c) (Str.split key) = false →
  fst (delete key c) = Normal tt.
Proof.
  intros Hpath. rewrite delete_completion.
  by apply delete_walk_returns; [apply split_nonempty|].
Qed.



(** On own properties: when no leaf lies on the path of [key] before its
    end, [get(key)] returns the node the path denotes if [key] is in the
    index and the path denotes one, and [undefined] otherwise. *)
Lemma get_returns_node_or_undefined_own (c : t) (key : string) :
  crosses_leaf (store c) (Str.split key) = false →
  fst (get key c) =
  Normal (if bool_decide (key ∈ keys c)
          then default VUndefined (resolve (store c) (Str.split key))
          else VUndefined).
Proof.
  intros Hpath. rewrite get_completion.
  destruct (bool_decide (key ∈ keys c)); [|done]. by apply get_walk_returns.
Qed.

(** On own properties: a leaf set over a branch shadows what was under
    it: after a [set(key, v)] of a leaf [v] that returned, [get] throws
    for every key in the index that starts with [key] and a colon. *)
Lemma set_leaf_shadows_descendants_own (c : t) (key k : string) (v : value) (ttl' : option Z) :
  leaf v = true →
  fst (set key v ttl' c) = Normal tt →
  Str.startsWith k (key ++ ":") = true →
  fst (has k c) = Normal true →
  fst (has k (snd (set key v ttl' c))) = Normal true ∧
  fst (get k (snd (set key v ttl' c))) = Throw TypeError.
Proof.
  intros Hv Hret Hk Hin.
  assert (k ∈ keys (snd (set key v ttl' c))) as Hin'.
  { rewrite set_keys. by apply addKey_mono, has_true. }
  split; [by apply has_true|].
  rewrite get_completion, bool_decide_eq_true_2 by done.
  apply get_walk_throws, crosses_leaf_resolve.
  apply startsWith_inv in Hk as [r ->].
  rewrite string_app_assoc, split_app_colon.
  exists (Str.split key), (Str.split r), v.
  split; [done|]. split; [apply split_nonempty|]. split; [|done].
  rewrite set_store. apply set_walk_stores; [apply split_nonempty|].
  by rewrite <- (set_completion _ _ ttl').
Qed.

(** ** Pruning by [delete] *)

Section pruning.

Implicit Types (c : t) (key k : string) (cur : value) (parts q : list string).





End pruning.

(** ** Properties on plain keys *)

(** X1: after [set(key, v)], whether it returned or threw, [has] is true
    for [key], and for every key that [key] extends by a colon and
    more. *)
Theorem set_indexes_every_prefix (c : t) (key : string) (v : value) (ttl' : option Z) :
  fst (has key (snd (set key v ttl' c))) = Normal true ∧
  ∀ p : string,
    Str.startsWith key (p ++ ":") = true →
    fst (has p (snd (set key v ttl' c))) = Normal true.
Proof.
  split.
  - rewrite has_true, set_keys. apply addKey_self.
  - intros p Hp. rewrite has_true, set_keys.
    by apply addKey_prefix, startsWith_colon_prefix.
Qed.

(** X3: in a run on plain keys, when no leaf lies on the path of a plain
    [key] before its end, [set(key, v)] returns, and then [has(key)] is
    true and [get(key)] returns [v]. *)
Theorem set_get_round_trip (o : CacheOptions) (ops : list operation)
    (key : string) (v : value) (ttl' : option Z) :
  forallb plain_op ops = true → plain_key key = true →
  crosses_leaf (store (run o ops)) (Str.split key) = false →
  fst (set key v ttl' (run o ops)) = Normal tt ∧
  fst (has key (snd (set key v ttl' (run o ops)))) = Normal true ∧
  fst (get key (snd (set key v ttl' (run o ops)))) = Normal v.
Proof. intros _ _. apply set_get_round_trip_own. Qed.

Lemma set_get_round_trip_witness :
  let ops := [OpSet "a:b" (VString "old") None; OpSet "c" (VNumber 1) None] in
  let v := VObject {[ "x" := VBoolean true ]} in
  forallb plain_op ops = true ∧ plain_key "a:b" = true ∧
  crosses_leaf (store (run no_options ops)) (Str.split "a:b") = false ∧
  fst (set "a:b" v (Some 3%Z) (run no_options ops)) = Normal tt ∧
  fst (get "a:b" (snd (set "a:b" v (Some 3%Z) (run no_options ops)))) = Normal v.
Proof.
  split; [reflexivity|]. split; [reflexivity|]. split; [vm_compute; reflexivity|].
  destruct (set_get_round_trip no_options
    [OpSet "a:b" (VString "old") None; OpSet "c" (VNumber 1) None]
    "a:b" (VObject {[ "x" := VBoolean true ]}) (Some 3%Z)
    ltac:(reflexivity) ltac:(reflexivity) ltac:(vm_compute; reflexivity))
    as (Hret & _ & Hget).
  split; [exact Hret | exact Hget].
Defined.

(** X4: in a run on plain keys, [set(key, v)] of a plain [key] throws
    [TypeError] exactly when a proper prefix of the path of [key] denotes
    a leaf of the value tree; the value and the ttl play no part. *)
Theorem set_throws_exactly_across_leaf (o : CacheOptions) (ops : list operation)
    (key : string) (v : value) (ttl' : option Z) :
  forallb plain_op ops = true → plain_key key = true →
  (fst (set key v ttl' (run o ops)) = Throw TypeError ↔
   ∃ (pre suf : list string) (l : value),
     Str.split key = (pre ++ suf)%list ∧ suf ≠ [] ∧
     resolve (store (run o ops)) pre = Some l ∧ leaf l = true).
Proof. intros _ _. apply set_throws_exactly_across_leaf_own. Qed.

Lemma set_throws_exactly_across_leaf_witness :
  let ops := [OpSet "a:b" VNull None] in
  forallb plain_op ops = true ∧ plain_key "a:b:c:d" = true ∧
  fst (set "a:b:c:d" (VNumber 1) None (run no_options ops)) = Throw TypeError.
Proof.
  split; [reflexivity|]. split; [reflexivity|].
  apply (set_throws_exactly_across_leaf no_options [OpSet "a:b" VNull None]);
    [reflexivity | reflexivity |].
  exists ["a"; "b"], ["c"; "d"], VNull.
  split; [reflexivity|]. split; [discriminate|]. split; vm_compute; reflexivity.
Defined.

(** X5: in a run on plain keys, [get(key)] of a plain [key] throws
    [TypeError] exactly when [key] is in the index and a proper prefix of
    its path denotes a leaf of the value tree. *)
Theorem get_throws_exactly_across_leaf (o : CacheOptions) (ops : list operation)
    (key : string) :
  forallb plain_op ops = true → plain_key key = true →
  (fst (get key (run o ops)) = Throw TypeError ↔
   fst (has key (run o ops)) = Normal true ∧
   ∃ (pre suf : list string) (l : value),
     Str.split key = (pre ++ suf)%list ∧ suf ≠ [] ∧
     resolve (store (run o ops)) pre = Some l ∧ leaf l = true).
Proof. intros _ _. apply get_throws_exactly_across_leaf_own. Qed.

Lemma get_throws_exactly_across_leaf_witness :
  let ops := [OpSet "a:b" (VNumber 1) None; OpSet "a" (VBoolean false) None] in
  forallb plain_op ops = true ∧ plain_key "a:b" = true ∧
  fst (get "a:b" (run no_options ops)) = Throw TypeError ∧
  fst (get "a:x" (run no_options ops)) = Normal VUndefined.
Proof.
  split; [reflexivity|]. split; [reflexivity|]. split; [|vm_compute; reflexivity].
  apply (get_throws_exactly_across_leaf no_options
    [OpSet "a:b" (VNumber 1) None; OpSet "a" (VBoolean false) None]);
    [reflexivity | reflexivity |].
  split; [vm_compute; reflexivity|].
  exists ["a"], ["b"], (VBoolean false).
  split; [reflexivity|]. split; [discriminate|]. split; vm_compute; reflexivity.
Defined.





(** X11: in a run on plain keys, a [set(key, v)] of a plain [key] that
    throws leaves the value tree and the pending timeouts as they were,
    but [key] is in the index afterwards, and [get(key)] throws as
    well. *)
Theorem set_throw_leaves_tree (o : CacheOptions) (ops : list operation)
    (key : string) (v : value) (ttl' : option Z) :
  forallb plain_op ops = true → plain_key key = true →
  fst (set key v ttl' (run o ops)) = Throw TypeError →
  store (snd (set key v ttl' (run o ops))) = store (run o ops) ∧
  timeouts (snd (set key v ttl' (run o ops))) = timeouts (run o ops) ∧
  fst (has key (snd (set key v ttl' (run o ops)))) = Normal true ∧
  fst (get key (snd (set key v ttl' (run o ops)))) = Throw TypeError.
Proof. intros _ _. apply set_throw_leaves_tree_own. Qed.

Lemma set_throw_leaves_tree_witness :
  let ops := [OpSet "a" (VString "leaf") None] in
  let c := run no_options ops in
  forallb plain_op ops = true ∧ plain_key "a:b:c" = true ∧
  fst (set "a:b:c" (VNumber 2) (Some 9%Z) c) = Throw TypeError ∧
  store (snd (set "a:b:c" (VNumber 2) (Some 9%Z) c)) = store c ∧
  fst (get "a:b:c" (snd (set "a:b:c" (VNumber 2) (Some 9%Z) c))) = Throw TypeError.
Proof.
  split; [reflexivity|]. split; [reflexivity|]. split; [vm_compute; reflexivity|].
  destruct (set_throw_leaves_tree no_options
    [OpSet "a" (VString "leaf") None] "a:b:c" (VNumber 2) (Some 9%Z)
    ltac:(reflexivity) ltac:(reflexivity) ltac:(vm_compute; reflexivity))
    as (Hstore & _ & _ & Hget).
  split; [exact Hstore | exact Hget].
Defined.

(** X13: [clear()] always returns; afterwards no key is in the index and
    every [get] returns [undefined]; in a run on plain keys every [set]
    of a plain key then returns and [get] gives its value back; the
    options are kept, and so are the pending timeouts, which [clear]
    does not cancel. *)
Theorem clear_resets (o : CacheOptions) (ops : list operation) :
  forallb plain_op ops = true →
  let c' := snd (clear (run o ops)) in
  fst (clear (run o ops)) = Normal tt ∧
  (∀ k : string, fst (has k c') = Normal false ∧ fst (get k c') = Normal VUndefined) ∧
  (∀ (key : string) (v : value) (ttl' : option Z),
     plain_key key = true →
     fst (set key v ttl' c') = Normal tt ∧
     fst (get key (snd (set key v ttl' c'))) = Normal v) ∧
  options c' = options (run o ops) ∧ timeouts c' = timeouts (run o ops).
Proof.
  intros _ c'. destruct (clear_resets_own (run o ops)) as (H1 & H2 & H3 & H4).
  split; [done|]. split; [done|]. split; [|done]. intros key v ttl' _. apply H3.
Qed.

Lemma clear_resets_witness :
  let ops := [OpSet "a" (VNumber 1) (Some 5%Z); OpSet "b:c" VNull None] in
  let c' := snd (clear (run no_options ops)) in
  forallb plain_op ops = true ∧
  fst (has "a" c') = Normal false ∧
  fst (set "a:x" (VNumber 2) None c') = Normal tt ∧
  timeouts c' = [("a", 5000%Z)].
Proof.
  split; [reflexivity|].
  destruct (clear_resets no_options
    [OpSet "a" (VNumber 1) (Some 5%Z); OpSet "b:c" VNull None]
    ltac:(reflexivity)) as (_ & Hgone & Hset & _ & Htimeouts).
  split; [exact (proj1 (Hgone "a"))|].
  split; [exact (proj1 (Hset "a:x" (VNumber 2) None ltac:(reflexivity)))|].
  rewrite Htimeouts. vm_compute. reflexivity.
Defined.

(** X14: in a run on plain keys, a plain key without a colon never makes
    a method throw: [set], [get] and [delete] of such a key return, and
    [get] after [set] returns the value. *)
Theorem flat_keys_never_throw (o : CacheOptions) (ops : list operation)
    (key : string) (v : value) (ttl' : option Z) :
  forallb plain_op ops = true → plain_key key = true →
  Str.colon_free key = true →
  let c := run o ops in
  fst (set key v ttl' c) = Normal tt ∧
  fst (get key (snd (set key v ttl' c))) = Normal v ∧
  fst (delete key c) = Normal tt ∧
  fst (get key c) ≠ Throw TypeError.
Proof. intros _ _. apply flat_keys_never_throw_own. Qed.

Lemma flat_keys_never_throw_witness :
  let ops := [OpSet "a:b" (VNumber 1) None; OpSet "a" (VNumber 2) None;
              OpSet "a:b:c" (VNumber 3) None] in
  forallb plain_op ops = true ∧ plain_key "a" = true ∧
  Str.colon_free "a" = true ∧
  fst (get "a:b" (run no_options ops)) = Throw TypeError ∧
  fst (set "a" VUndefined None (run no_options ops)) = Normal tt ∧
  fst (delete "a" (run no_options ops)) = Normal tt.
Proof.
  do 3 (split; [reflexivity|]). split; [vm_compute; reflexivity|].
  destruct (flat_keys_never_throw no_options
    [OpSet "a:b" (VNumber 1) None; OpSet "a" (VNumber 2) None;
     OpSet "a:b:c" (VNumber 3) None] "a" VUndefined None
    ltac:(reflexivity) ltac:(reflexivity) ltac:(reflexivity))
    as (Hset & _ & Hdelete & _).
  split; [exact Hset | exact Hdelete].
Defined.

(** X15: in a run on plain keys, [delete(key)] of a plain [key] returns
    when no leaf lies on the path of [key] before its end, whether or
    not the key is present. *)
Theorem delete_returns_off_leaves (o : CacheOptions) (ops : list operation)
    (key : string) :
  forallb plain_op ops = true → plain_key key = true →
  crosses_leaf (store (run o ops)) (Str.split key) = false →
  fst (delete key (run o ops)) = Normal tt.
Proof. intros _ _. apply delete_returns_off_leaves_own. Qed.

Lemma delete_returns_off_leaves_witness :
  let ops := [OpSet "a:b" (VNumber 1) None] in
  forallb plain_op ops = true ∧ plain_key "a:x:y:z" = true ∧
  crosses_leaf (store (run no_options ops)) (Str.split "a:x:y:z") = false ∧
  fst (delete "a:x:y:z" (run no_options ops)) = Normal tt.
Proof.
  split; [reflexivity|]. split; [reflexivity|]. split; [vm_compute; reflexivity|].
  apply delete_returns_off_leaves; vm_compute; reflexivity.
Defined.

(** X17: in a run on plain keys, when no leaf lies on the path of a
    plain [key] before its end, [get(key)] returns the node the path
    denotes if [key] is in the index and the path denotes one, and
    [undefined] otherwise. *)
Theorem get_returns_node_or_undefined (o : CacheOptions) (ops : list operation)
    (key : string) :
  forallb plain_op ops = true → plain_key key = true →
  crosses_leaf (store (run o ops)) (Str.split key) = false →
  fst (get key (run o ops)) =
  Normal (if bool_decide (key ∈ keys (run o ops))
          then default VUndefined (resolve (store (run o ops)) (Str.split key))
          else VUndefined).
Proof. intros _ _. apply get_returns_node_or_undefined_own. Qed.

Lemma get_returns_node_or_undefined_witness :
  let ops := [OpSet "a" (VObject {[ "b" := VNumber 1 ]}) None;
              OpSet "c:d" (VNumber 2) None; OpDelete "c:d"] in
  forallb plain_op ops = true ∧ plain_key "a:b" = true ∧
  crosses_leaf (store (run no_options ops)) (Str.split "a:b") = false ∧
  fst (get "a:b" (run no_options ops)) = Normal VUndefined ∧
  fst (get "c" (run no_options ops)) = Normal (VObject ∅).
Proof.
  split; [reflexivity|]. split; [reflexivity|]. split; [vm_compute; reflexivity|].
  split.
  - rewrite get_returns_node_or_undefined; vm_compute; reflexivity.
  - vm_compute. reflexivity.
Defined.

(** X18: in a run on plain keys, a leaf set over a branch shadows what
    was under it: after a [set(key, v)] of a plain [key] and a leaf [v]
    that returned, every key in the index that starts with [key] and a
    colon is still in the index, and [get] throws for it. *)
Theorem set_leaf_shadows_descendants (o : CacheOptions) (ops : list operation)
    (key k : string) (v : value) (ttl' : option Z) :
  forallb plain_op ops = true → plain_key key = true →
  leaf v = true →
  fst (set key v ttl' (run o ops)) = Normal tt →
  Str.startsWith k (key ++ ":") = true →
  fst (has k (run o ops)) = Normal true →
  fst (has k (snd (set key v ttl' (run o ops)))) = Normal true ∧
  fst (get k (snd (set key v ttl' (run o ops)))) = Throw TypeError.
Proof. intros _ _. apply set_leaf_shadows_descendants_own. Qed.

Lemma set_leaf_shadows_descendants_witness :
  let ops := [OpSet "a:b:c" (VNumber 1) None] in
  let c := run no_options ops in
  forallb plain_op ops = true ∧ plain_key "a" = true ∧
  leaf (VNumber 2) = true ∧
  fst (set "a" (VNumber 2) None c) = Normal tt ∧
  Str.startsWith "a:b:c" ("a" ++ ":") = true ∧
  fst (get "a:b:c" c) = Normal (VNumber 1) ∧
  fst (get "a:b:c" (snd (set "a" (VNumber 2) None c))) = Throw TypeError.
Proof.
  do 3 (split; [reflexivity|]). split; [vm_compute; reflexivity|].
  split; [reflexivity|]. split; [vm_compute; reflexivity|].
  apply (set_leaf_shadows_descendants no_options
    [OpSet "a:b:c" (VNumber 1) None] "a" "a:b:c" (VNumber 2) None);
    vm_compute; reflexivity.
Defined.



(** X21: in a run on plain keys of an instance constructed with a default
    ttl [T] that is not [0], a [set] of a plain key without a ttl that
    returns arms one timeout for the key with the delay [T * 1000] ms,
    and when it fires the key leaves the index and the value tree; with
    an explicit ttl [t] that is not [0] the delay is [t * 1000] ms
    instead.  The products are exact below [2 ^ 53]. *)
Theorem ttl_arms_timeout (o : CacheOptions) (ops : list operation)
    (key : string) (v : value) (T : Z) :
  forallb plain_op ops = true → plain_key key = true →
  ttl o = Some T → T ≠ 0%Z → (Z.abs (T * 1000) < 2 ^ 53)%Z →
  fst (set key v None (run o ops)) = Normal tt →
  let c := run o ops in
  let fired := snd (expire (List.length (timeouts c)) (snd (set key v None c))) in
  timeouts (snd (set key v None c)) = (timeouts c ++ [(key, (T * 1000)%Z)])%list ∧
  fst (has key fired) = Normal false ∧
  denotes_node (store fired) key = false ∧
  ∀ t : Z,
    t ≠ 0%Z → (Z.abs (t * 1000) < 2 ^ 53)%Z →
    timeouts (snd (set key v (Some t) c)) = (timeouts c ++ [(key, (t * 1000)%Z)])%list.
Proof.
  intros _ _ HT HT0 Hexact Hret c fired.
  assert (ttl (options c) = Some T) as Hopts.
  { unfold c, run. by rewrite steps_options. }
  assert (truthy (Some T) = true) as Htruthy.
  { simpl. by apply negb_true_iff, Z.eqb_neq. }
  assert (timeouts (snd (set key v None c))
          = (timeouts c ++ [(key, (T * 1000)%Z)])%list) as Harmed.
  { rewrite set_timeouts. fold c in Hret. rewrite Hret, Hopts, Htruthy. simpl.
    unfold times1000. by rewrite to_double_exact. }
  assert (timeouts (snd (set key v None c)) !! List.length (timeouts c)
          = Some (key, (T * 1000)%Z)) as Hlast.
  { rewrite Harmed. by rewrite lookup_app_r, Nat.sub_diag. }
  split; [done|]. split; [by apply (expire_deletes _ key (T * 1000)%Z)|].
  split; [by apply (expire_excises _ key (T * 1000)%Z)|].
  intros t Ht0 Htexact.
  assert (fst (set key v (Some t) c) = Normal tt) as Hret'.
  { rewrite set_completion. fold c in Hret. by rewrite set_completion in Hret. }
  assert (truthy (Some t) = true) as Ht.
  { simpl. by apply negb_true_iff, Z.eqb_neq. }
  rewrite set_timeouts, Hret', Ht. simpl.
  unfold times1000. by rewrite to_double_exact.
Qed.

Lemma ttl_arms_timeout_witness :
  let o := {| ttl := Some 60%Z; debug := false |} in
  let ops := [OpSet "a" (VNumber 1) (Some 2%Z)] in
  forallb plain_op ops = true ∧ plain_key "k" = true ∧
  ttl o = Some 60%Z ∧ 60%Z ≠ 0%Z ∧ (Z.abs (60 * 1000) < 2 ^ 53)%Z ∧
  fst (set "k" (VNumber 1) None (run o ops)) = Normal tt ∧
  timeouts (snd (set "k" (VNumber 1) None (run o ops)))
    = [("a", 2000%Z); ("k", 60000%Z)] ∧
  timeouts (snd (set "k" (VNumber 1) (Some 7%Z) (run o ops)))
    = [("a", 2000%Z); ("k", 7000%Z)].
Proof.
  split; [reflexivity|]. split; [reflexivity|]. split; [reflexivity|].
  split; [lia|]. split; [reflexivity|]. split; [vm_compute; reflexivity|].
  destruct (ttl_arms_timeout {| ttl := Some 60%Z; debug := false |}
    [OpSet "a" (VNumber 1) (Some 2%Z)] "k" (VNumber 1) 60%Z
    ltac:(reflexivity) ltac:(reflexivity) ltac:(reflexivity) ltac:(lia)
    ltac:(reflexivity) ltac:(vm_compute; reflexivity))
    as (Hdefault & _ & _ & Hexplicit).
  split; [exact Hdefault|].
  exact (Hexplicit 7%Z ltac:(lia) ltac:(reflexivity)).
Defined.
